(** * ksiga.fsig: statistics of k-mer signatures

    A shallow embedding of [src/ksiga/fsig.py] and the properties its
    specification states about it.

    Conventions of the embedding.
    - A one-row scipy CSR array is the list of its stored entries
      (column index, stored value), in storage order, together with its
      number of columns; [indices] and [data] are the two projections.
    - A signature file is modelled by what [KmerSignature(path)] reads from
      it: the sparse array stored for each k.
    - Python exceptions are the [Raise] results of an error monad.
    - numpy float64 values are [float64]: an exact real, or one of the three
      IEEE special values.  Rounding and the sign of zero are not modelled;
      division by zero, infinities and NaN are.
    - What the sources import from elsewhere is a parameter: scipy's
      interpolant for the curve selector, and the key arithmetic and the
      sorted search of the join. *)

From Stdlib Require Import ZArith List Reals Lra Lia.
From stdpp Require Import base option list gmap.

Set Default Proof Using "Type".
#[local] Set Warnings "-clear-no-such-hyp".

(** ** Python exceptions *)

Inductive pyerror : Type :=
  | NotImplementedError
  | IndexError
  | KeyError
  | NameError
  | AssertionError
  | ValueError
  | ZeroDivisionError
  | FloatingPointError.

Inductive result (A : Type) : Type :=
  | Ok (a : A)
  | Raise (e : pyerror).
Arguments Ok {A} a.
Arguments Raise {A} e.

#[global] Instance result_ret : MRet result := fun _ a => Ok a.
#[global] Instance result_bind : MBind result := fun _ _ f m =>
  match m with
  | Ok a => f a
  | Raise e => Raise e
  end.

Definition from_option {A} (e : pyerror) (o : option A) : result A :=
  match o with
  | Some a => Ok a
  | None => Raise e
  end.

Definition py_assert (b : bool) : result unit :=
  if b then Ok tt else Raise AssertionError.

(** ** numpy float64 *)

Module NP.

Inductive float64 : Type :=
  | Finite (r : R)
  | PInf
  | NInf
  | NaN.

Definition of_int (z : Z) : float64 := Finite (IZR z).

Definition is_finite (a : float64) : bool :=
  match a with
  | Finite _ => true
  | _ => false
  end.

Definition neg (a : float64) : float64 :=
  match a with
  | Finite r => Finite (- r)
  | PInf => NInf
  | NInf => PInf
  | NaN => NaN
  end.

Definition add (a b : float64) : float64 :=
  match a, b with
  | NaN, _ | _, NaN => NaN
  | Finite x, Finite y => Finite (x + y)
  | PInf, NInf | NInf, PInf => NaN
  | PInf, _ | _, PInf => PInf
  | NInf, _ | _, NInf => NInf
  end.

Definition sub (a b : float64) : float64 := add a (neg b).

(** An infinity [i] multiplied by the finite [r]: [inf * 0] is NaN. *)
Definition scale_inf (i : float64) (r : R) : float64 :=
  if Rlt_dec 0 r then i else if Rlt_dec r 0 then neg i else NaN.

Definition mul (a b : float64) : float64 :=
  match a, b with
  | NaN, _ | _, NaN => NaN
  | Finite x, Finite y => Finite (x * y)
  | Finite x, i => scale_inf i x
  | i, Finite y => scale_inf i y
  | PInf, PInf | NInf, NInf => PInf
  | PInf, NInf | NInf, PInf => NInf
  end.

(** numpy's true division: a zero divisor gives an infinity (or NaN for
    [0/0]) and a warning, never an exception. *)
Definition div (a b : float64) : float64 :=
  match a, b with
  | NaN, _ | _, NaN => NaN
  | Finite x, Finite y =>
      if Req_dec_T y 0 then
        if Rlt_dec 0 x then PInf else if Rlt_dec x 0 then NInf else NaN
      else Finite (x / y)
  | Finite _, _ => Finite 0
  | i, Finite y => if Rlt_dec y 0 then neg i else i
  | _, _ => NaN
  end.

(** [np.log] and [np.log2]: [-inf] at zero, NaN below it. *)
Definition log_base (b : R) (a : float64) : float64 :=
  match a with
  | Finite x =>
      if Rlt_dec 0 x then Finite (ln x / ln b)
      else if Rlt_dec x 0 then NaN else NInf
  | PInf => PInf
  | NInf => NaN
  | NaN => NaN
  end.

Definition log2 : float64 -> float64 := log_base 2.
Definition log : float64 -> float64 := log_base (exp 1).

Definition maximum (a b : float64) : float64 :=
  match a, b with
  | NaN, _ | _, NaN => NaN
  | PInf, _ | _, PInf => PInf
  | NInf, c | c, NInf => c
  | Finite x, Finite y => Finite (Rmax x y)
  end.

Definition minimum (a b : float64) : float64 :=
  match a, b with
  | NaN, _ | _, NaN => NaN
  | NInf, _ | _, NInf => NInf
  | PInf, c | c, PInf => c
  | Finite x, Finite y => Finite (Rmin x y)
  end.

(** [np.clip(a, lo, hi)] is [minimum(maximum(a, lo), hi)]. *)
Definition clip (lo hi a : float64) : float64 := minimum (maximum a lo) hi.

(** [a <= b] on floats: false as soon as one side is NaN. *)
Definition le (a b : float64) : Prop :=
  match a, b with
  | NaN, _ | _, NaN => False
  | NInf, _ | _, PInf => True
  | Finite x, Finite y => (x <= y)%R
  | _, _ => False
  end.

(** A series in which each element is at most the one before it. *)
Fixpoint non_increasing (l : list float64) : Prop :=
  match l with
  | a :: (b :: _) as t => le b a /\ non_increasing t
  | _ => True
  end.

(** [ndarray.sum()] and [ndarray.cumsum()]. *)
Definition sum (l : list float64) : float64 := fold_left add l (Finite 0).

Fixpoint cumsum_from (acc : float64) (l : list float64) : list float64 :=
  match l with
  | [] => []
  | x :: t => let s := add acc x in s :: cumsum_from s t
  end.

Definition cumsum (l : list float64) : list float64 :=
  match l with
  | [] => []
  | x :: t => x :: cumsum_from x t
  end.

End NP.

(** ** Sparse arrays and signature files *)

(** One row of a scipy CSR matrix: the stored entries (column, value). *)
Record csr_row : Type := CsrRow {
  ncols : Z;
  entries : list (Z * Z)
}.

Definition indices (r : csr_row) : list Z := (entries r).*1.
Definition data (r : csr_row) : list Z := (entries r).*2.
Definition getnnz (r : csr_row) : Z := Z.of_nat (length (entries r)).

(** [KmerSignature(path)]: the sparse array stored for each k, when that k
    was indexed. *)
Record KmerSignature : Type := Signature {
  stored : Z -> option csr_row
}.

(** [store.get_sparse_array(ksize)] fails when [ksize] was never indexed. *)
Definition get_sparse_array (store : KmerSignature) (ksize : Z) : result csr_row :=
  from_option KeyError (stored store ksize).

(** Modelled from the spec: [ksiga.ksignature.rebuild_sparse_matrix], which
    is not part of the sources.  It stacks the sparse arrays of the files, one
    row per file in the order given, and fails if a file lacks the index. *)
Definition rebuild_sparse_matrix (stores : list KmerSignature) (ksize : Z)
  : result (list csr_row) :=
  mapM (fun s => get_sparse_array s ksize) stores.

Definition sumZ (l : list Z) : Z := fold_left Z.add l 0%Z.

(** ** Common features (fsig.py, lines 206-281) *)

Module CommonFeature.
Import NP.

(** [csr_matrix.data = np.ones(...)]: every stored value becomes 1. *)
Definition ones (r : csr_row) : csr_row :=
  CsrRow (ncols r) (map (fun e => (e.1, 1%Z)) (entries r)).

(** The product of two sparse rows; entries stored twice for one column add
    up, as in scipy. *)
Definition row_dot (r1 r2 : csr_row) : Z :=
  sumZ (map (fun e1 =>
    sumZ (map (fun e2 => if (e1.1 =? e2.1)%Z then (e1.2 * e2.2)%Z else 0%Z)
              (entries r2)))
    (entries r1)).

(** [csr_matrix.dot(csr_matrix[i].transpose())]: one value per row. *)
Definition dot_transpose (csr : list csr_row) (row : csr_row) : list Z :=
  map (fun r => row_dot r row) csr.

Definition divide_by_norm (vals : list Z) (norm : Z) : list float64 :=
  map (fun v => div (of_int v) (of_int norm)) vals.

Definition calculate_average_common_feature
    (stores : list KmerSignature) (ksize : Z) : result (list float64) :=
  csr_matrix ← rebuild_sparse_matrix stores ksize;
  let rowNum := length csr_matrix in
  let norm := (Z.of_nat rowNum - 1)%Z in
  let csr_matrix := map ones csr_matrix in
  vals ← mapM (fun i =>
      row ← from_option IndexError (csr_matrix !! i);
      let val := dot_transpose csr_matrix row in
      let val := <[i := 0%Z]> val in
      mret (sumZ val))
    (seq 0 rowNum);
  mret (divide_by_norm vals norm).

(** [len(set(mi.indices).intersection(mj.indices))] *)
Definition shared_keys (mi mj : csr_row) : Z :=
  let si : gset Z := list_to_set (indices mi) in
  let sj : gset Z := list_to_set (indices mj) in
  Z.of_nat (size (si ∩ sj)).

(** The state of one call of the streaming estimator: the memoization
    table, and (for the proofs only) the pairs [(i, j)] at which the set
    intersection was computed, in order. *)
Record lowmem_state : Type := LowmemState {
  memoize : gmap (nat * nat) Z;
  computed : list (nat * nat)
}.

(** One turn of the inner loop ([for j in range(numStore)]). *)
Definition lowmem_inner (stores : list KmerSignature) (ksize : Z) (i j : nat)
    (acc : lowmem_state * Z) : result (lowmem_state * Z) :=
  let '(st, rowVal) := acc in
  if (i =? j)%nat then mret (st, rowVal)
  else
    (* if j < i: val = memoize[(j, i)] *)
    _ ← (if (j <? i)%nat
         then from_option KeyError (memoize st !! (j, i))
         else mret 0%Z);
    fi ← from_option IndexError (stores !! i);
    fj ← from_option IndexError (stores !! i);
    mi ← get_sparse_array fi ksize;
    mj ← get_sparse_array fj ksize;
    let val := shared_keys mi mj in
    mret (LowmemState (<[(i, j) := val]> (memoize st)) (computed st ++ [(i, j)]),
          (rowVal + val)%Z).

Fixpoint for_loop {S : Type} (body : nat -> S -> result S) (range : list nat)
    (s : S) : result S :=
  match range with
  | [] => mret s
  | i :: rest => s' ← body i s; for_loop body rest s'
  end.

(** One turn of the outer loop ([for i in range(numStore)]). *)
Definition lowmem_outer (stores : list KmerSignature) (ksize : Z) (i : nat)
    (acc : lowmem_state * list Z) : result (lowmem_state * list Z) :=
  let '(st, vals) := acc in
  '(st', rowVal) ← for_loop (lowmem_inner stores ksize i)
                     (seq 0 (length stores)) (st, 0%Z);
  mret (st', vals ++ [rowVal]).

Definition lowmem_run (stores : list KmerSignature) (ksize : Z)
  : result (lowmem_state * list Z) :=
  for_loop (lowmem_outer stores ksize) (seq 0 (length stores))
    (LowmemState ∅ [], []).

Definition lowmem_calculate_average_common_feature
    (stores : list KmerSignature) (ksize : Z) : result (list float64) :=
  let numStore := length stores in
  let norm := (Z.of_nat numStore - 1)%Z in
  '(_, vals) ← lowmem_run stores ksize;
  mret (divide_by_norm vals norm).

Definition pair_calculate_average_common_feature
    (store1 store2 : KmerSignature) (ksize : Z) : result Z :=
  mi ← get_sparse_array store1 ksize;
  mj ← get_sparse_array store2 ksize;
  mret (shared_keys mi mj).

(** The number of distinct keys that the file at position [i] holds at
    [ksize] (0 when there is no such file or index). *)
Definition own_keys (stores : list KmerSignature) (ksize : Z) (i : nat) : Z :=
  match stores !! i with
  | Some store =>
      match stored store ksize with
      | Some row => shared_keys row row
      | None => 0%Z
      end
  | None => 0%Z
  end.

(** The sum, over the rows other than row [i], of the keys they share with
    row [i]. *)
Definition shared_with_others (rows : list csr_row) (i : nat) : Z :=
  match rows !! i with
  | Some ri => sumZ (<[i := 0%Z]> (map (fun rj => shared_keys rj ri) rows))
  | None => 0%Z
  end.

(** The positions other than [i], and all ordered pairs of distinct
    positions below [n], in the order of the two nested loops. *)
Definition others (n i : nat) : list nat := filter (fun j => j <> i) (seq 0 n).

Definition ordered_pairs (n : nat) : list (nat * nat) :=
  flat_map (fun i => map (pair i) (others n i)) (seq 0 n).

End CommonFeature.

(** ** numpy indexing *)

(** [l[i]], with Python's negative indices. *)
Definition getitem {A : Type} (l : list A) (i : Z) : result A :=
  let n := Z.of_nat (length l) in
  if (0 <=? i)%Z then from_option IndexError (l !! Z.to_nat i)
  else if (- n <=? i)%Z then from_option IndexError (l !! Z.to_nat (n + i))
  else Raise IndexError.

(** [a[idx]] for an array of indices. *)
Definition take_indices {A : Type} (a : list A) (idx : list Z) : result (list A) :=
  mapM (getitem a) idx.

(** [range(lo, hi)] *)
Definition range (lo hi : Z) : list Z :=
  map (fun i => (lo + Z.of_nat i)%Z) (seq 0 (Z.to_nat (hi - lo))).

(** ** The curve selector (fsig.py, lines 455-471) *)

Module Selector.
Import NP.

(** [a < b] and [a != b] as numpy evaluates them: a comparison with NaN is
    false, and NaN differs from everything. *)
Definition ltb (a b : float64) : bool :=
  match a, b with
  | NaN, _ | _, NaN => false
  | Finite x, Finite y => if Rlt_dec x y then true else false
  | NInf, NInf | PInf, _ => false
  | NInf, _ | Finite _, PInf => true
  | Finite _, NInf => false
  end.

Definition neb (a b : float64) : bool :=
  match a, b with
  | Finite x, Finite y => if Req_dec_T x y then false else true
  | PInf, PInf | NInf, NInf => false
  | _, _ => true
  end.

(** [ndarray.max()] and [ndarray.min()]; an empty array has neither. *)
Definition array_max (y : list float64) : result float64 :=
  match y with
  | [] => Raise ValueError
  | v :: rest => Ok (fold_left maximum rest v)
  end.

Definition array_min (y : list float64) : result float64 :=
  match y with
  | [] => Raise ValueError
  | v :: rest => Ok (fold_left minimum rest v)
  end.

Definition sign (a : float64) : float64 :=
  match a with
  | Finite x =>
      if Rlt_dec 0 x then Finite 1 else if Rlt_dec x 0 then Finite (-1) else Finite 0
  | PInf => Finite 1
  | NInf => Finite (-1)
  | NaN => NaN
  end.

(** [np.diff]: each element minus the one before it. *)
Fixpoint diff (l : list float64) : list float64 :=
  match l with
  | a :: (b :: _) as t => sub b a :: diff t
  | _ => []
  end.

(** [np.argwhere(mask).reshape(-1)]: the positions holding [true]. *)
Fixpoint argwhere_from (i : Z) (mask : list bool) : list Z :=
  match mask with
  | [] => []
  | b :: t => (if b then [i] else []) ++ argwhere_from (i + 1) t
  end.

Definition argwhere (mask : list bool) : list Z := argwhere_from 0 mask.

(** [np.linspace(start, stop, num)] for [num > 1]: [i * step + start], the
    last point set to [stop]. *)
Definition linspace (start stop : float64) (num : nat) : list float64 :=
  let step := div (sub stop start) (of_int (Z.of_nat num - 1)) in
  let y := map (fun i => add (mul (of_int (Z.of_nat i)) step) start) (seq 0 num) in
  <[(num - 1)%nat := stop]> y.

(** Line 468: the positions where [sign(yn - cutoff)] changes from one grid
    point to the next. *)
Definition sign_changes (yn : list float64) (cutoff : float64) : list Z :=
  argwhere (map (fun d => neb d (Finite 0))
                (diff (map (fun v => sign (sub v cutoff)) yn))).

Section WithInterpolation.

(** [scipy.interpolate.interp1d(x, y, kind="cubic")]: the interpolating
    function, or an error (scipy refuses fewer than four points). *)
Variable interp1d : list float64 -> list float64 -> result (float64 -> float64).

Definition _find_yintercept (x y : list float64) (percent : float64)
  : result float64 :=
  ymax ← array_max y;
  let cutoff := div ymax percent in
  ymin ← array_min y;
  if ltb cutoff ymin then Raise NotImplementedError
  else
    fi ← interp1d x y;
    x_first ← getitem x 0;
    x_last ← getitem x (-1);
    let xn := linspace x_first x_last 500 in
    let yn := map fi xn in
    let idx := sign_changes yn cutoff in
    i ← getitem idx 0;
    let xIntercept := getitem xn i in
    xIntercept.

End WithInterpolation.

End Selector.

(** ** Relative entropy (fsig.py, lines 22-41 and 130-203) *)

Module RelativeEntropy.
Import NP.

(** Lines 183-192: the factorized formula over the aligned counts. *)
Definition factorized (ARes FRes BRes MRes : list Z) (norm0 norm1 norm2 : Z)
  : float64 :=
  let expectation :=
    zip_with (fun fb m => div (of_int fb) (of_int m)) (zip_with Z.mul FRes BRes) MRes in
  let observation := ARes in
  let normFactor := div (of_int (norm1 ^ 2)) (of_int (norm2 * norm0)) in
  let rhs :=
    map (fun q => add (log2 q) (log2 normFactor))
        (zip_with (fun a e => div (of_int a) e) observation expectation) in
  let lhs := map (fun a => div (of_int a) (of_int norm0)) ARes in
  sum (zip_with mul lhs rhs).

(** Lines 194-201, commented out in the source: the formula as written in
    the paper, the per-symbol relative-entropy sum of the specification. *)
Definition paper_formula (ARes FRes BRes MRes : list Z) (norm0 norm1 norm2 : Z)
  : float64 :=
  let expectation :=
    zip_with div
      (zip_with mul (map (fun f => div (of_int f) (of_int norm1)) FRes)
                    (map (fun b => div (of_int b) (of_int norm1)) BRes))
      (map (fun m => div (of_int m) (of_int norm2)) MRes) in
  let observation := map (fun a => div (of_int a) (of_int norm0)) ARes in
  sum (zip_with mul observation (map log2 (zip_with div observation expectation))).

(** The contribution of one k-mer, in the factorized formula and in the one
    of the paper. *)
Definition factorized_term (a f b m norm0 norm1 norm2 : Z) : float64 :=
  mul (div (of_int a) (of_int norm0))
      (add (log2 (div (of_int a) (div (of_int (f * b)) (of_int m))))
           (log2 (div (of_int (norm1 ^ 2)) (of_int (norm2 * norm0))))).

Definition paper_term (a f b m norm0 norm1 norm2 : Z) : float64 :=
  let observation := div (of_int a) (of_int norm0) in
  let expectation :=
    div (mul (div (of_int f) (of_int norm1)) (div (of_int b) (of_int norm1)))
        (div (of_int m) (of_int norm2)) in
  mul observation (log2 (div observation expectation)).

(** Lines 178-192: the three assertions, then the formula with the norms
    summed from the three arrays ([ARes] is [array0.data]). *)
Definition relative_entropy_of_counts
    (ARes FRes BRes MRes data1 data2 : list Z) : result float64 :=
  _ ← py_assert (length ARes =? length FRes)%nat;
  _ ← py_assert (length FRes =? length BRes)%nat;
  _ ← py_assert (length BRes =? length MRes)%nat;
  mret (factorized ARes FRes BRes MRes (sumZ ARes) (sumZ data1) (sumZ data2)).

(** Lines 390-395: clip at zero, accumulate from the tail, prepend the
    total. *)
Definition cre_of (relEntropies : list float64) : list float64 :=
  let relEntropies := map (clip (Finite 0) PInf) relEntropies in
  let maximumVal := sum relEntropies in
  let cre := map (fun c => sub maximumVal c) (cumsum relEntropies) in
  maximumVal :: cre.

Section WithJoin.

(** What the sources import: [kmerutil.trimFront], [kmerutil.trimBack],
    [su.searchsorted], [np.argsort], and [int(math.log(n, 4))]. *)
Variable trimFront : list Z -> Z -> list Z.
Variable trimBack : list Z -> list Z.
Variable searchsorted : list Z -> list Z -> list Z.
Variable argsort : list Z -> list Z.
Variable int_log4 : Z -> Z.

(** [bins = _calculate_limit(ksize)] is computed and never used; it is left
    out. *)
Definition _calculate_re_vectorize (array0 array1 array2 : csr_row)
  : result float64 :=
  let ksize := (int_log4 (ncols array1) + 1)%Z in
  let ARes := data array0 in
  let fHash := trimFront (indices array0) ksize in
  let idx := argsort fHash in
  let inv_idx := argsort idx in
  fHash_sorted ← take_indices fHash idx;
  let fIdx_sorted := searchsorted (indices array1) fHash_sorted in
  fIdx ← take_indices fIdx_sorted inv_idx;
  FRes ← take_indices (data array1) fIdx;
  let bHash := trimBack (indices array0) in
  let bIdx := searchsorted (indices array1) bHash in
  BRes ← take_indices (data array1) bIdx;
  let mHash := trimBack fHash in
  let idx := argsort mHash in
  let inv_idx := argsort idx in
  mHash_sorted ← take_indices mHash idx;
  let mIdx_sorted := searchsorted (indices array2) mHash_sorted in
  mIdx ← take_indices mIdx_sorted inv_idx;
  MRes ← take_indices (data array2) mIdx;
  relative_entropy_of_counts ARes FRes BRes MRes (data array1) (data array2).

Definition calculate_relative_entropy (store : KmerSignature) (ksize : Z)
  : result float64 :=
  array0 ← get_sparse_array store ksize;
  array1 ← get_sparse_array store (ksize - 1);
  array2 ← get_sparse_array store (ksize - 2);
  _calculate_re_vectorize array0 array1 array2.

Variable interp1d : list float64 -> list float64 -> result (float64 -> float64).

Definition calculate_cre_kmer (store : KmerSignature) (start_k stop_k : Z)
  : result (list float64 * float64) :=
  relEntropies ← mapM (calculate_relative_entropy store)
                   (range (start_k + 1) (stop_k + 1));
  let cre := cre_of relEntropies in
  let kmerRange := map of_int (range start_k (stop_k + 1)) in
  suggestKmer ← Selector._find_yintercept interp1d kmerRange cre (of_int 10);
  mret (cre, suggestKmer).

End WithJoin.

End RelativeEntropy.

(** ** Observed feature frequencies (fsig.py, lines 284-313 and 422-449) *)

Module FeatureFrequency.
Import NP.

(** [4 ** ksize]: an integer, or a float when the exponent is negative. *)
Definition allPossibleFeatures (ksize : Z) : float64 :=
  if (0 <=? ksize)%Z then of_int (4 ^ ksize) else Finite (/ IZR (4 ^ (- ksize))).

(** Lines 289-292 and 302-305: the Shannon sum of the rows of one matrix. *)
Definition shannon_of (spmatrix : list csr_row) (ksize : Z) : float64 :=
  let eachGenomeFeatures := map getnnz spmatrix in
  let prob := map (fun n => div (of_int n) (allPossibleFeatures ksize))
                  eachGenomeFeatures in
  mul (sum (map (fun p => mul p (log p)) prob)) (of_int (-1)).

Definition calculate_ofc_shannon (stores : list KmerSignature) (ksize : Z)
  : result float64 :=
  spmatrix ← rebuild_sparse_matrix stores ksize;
  mret (shannon_of spmatrix ksize).

(** [binning(lst, binsize)]: the slices [lst[i:i+binsize]] for [i] in
    [range(0, len(lst), binsize)].  A zero step is refused by [range]; a
    negative one gives no slice. *)
Definition binning {A : Type} (lst : list A) (binsize : Z) : result (list (list A)) :=
  if (binsize =? 0)%Z then Raise ValueError
  else if (binsize <? 0)%Z then mret []
  else
    let b := Z.to_nat binsize in
    mret (map (fun q => take b (drop (q * b) lst))
              (seq 0 (Nat.div (length lst + b - 1) b))).

(** The loop of [lowmem_calculate_ofc_shannon] over the bins. *)
Fixpoint shannon_loop (bins : list (list KmerSignature)) (ksize : Z)
    (shannon : float64) : result float64 :=
  match bins with
  | [] => mret shannon
  | storebin :: rest =>
      binSp ← rebuild_sparse_matrix storebin ksize;
      let binAns := shannon_of binSp ksize in
      shannon_loop rest ksize (add shannon binAns)
  end.

(** The estimator with the bin size made explicit. *)
Definition lowmem_shannon_with (binsize : Z) (stores : list KmerSignature)
    (ksize : Z) : result float64 :=
  bins ← binning stores binsize;
  shannon_loop bins ksize (of_int 0).

(** [binning(stores)]: the source always takes the default, 50. *)
Definition lowmem_calculate_ofc_shannon (stores : list KmerSignature) (ksize : Z)
  : result float64 :=
  lowmem_shannon_with 50 stores ksize.

(** Lines 355-368, commented out in the source: the number of distinct
    columns of the matrix, and how many of them are stored exactly once. *)
Definition count_occ_Z (x : Z) (l : list Z) : nat :=
  length (filter (fun y => y = x) l).

Fixpoint unique (l : list Z) : list Z :=
  match l with
  | [] => []
  | x :: t => if bool_decide (x ∈ t) then unique t else x :: unique t
  end.

Definition commented_calculate_ocf (spmatrix : list csr_row) : Z * Z :=
  let all_indices := concat (map indices spmatrix) in
  let uniq := unique all_indices in
  let allPossible := Z.of_nat (length uniq) in
  let numberOfUnique :=
    Z.of_nat (length (filter (fun x => count_occ_Z x all_indices = 1%nat) uniq)) in
  (allPossible, numberOfUnique).

(** [a[-1]] of a possibly empty list. *)
Definition last_item {A : Type} (l : list A) : result A := getitem l (-1).

(** Lines 441-447: the percentages and the index chosen from them. *)
Definition percentage_of (ocf allPossibleKmer : list Z) : list float64 :=
  zip_with (fun o a => mul (sub (of_int 1) (div (of_int o) (of_int a))) (of_int 100))
           ocf allPossibleKmer.

Definition choose_kmer (percentage : list float64) (start_k : Z) : result Z :=
  let cutoff := of_int 80 in
  let drops :=
    Selector.argwhere
      (map (fun d => Selector.ltb d (Finite 0))
           (Selector.diff (map (fun p => Selector.sign (sub p cutoff)) percentage))) in
  i ← last_item drops;
  mret (i + start_k)%Z.

(** [calculate_ofc_kmer], given what the global name [_calculate_ocf] is
    bound to when the loop body runs. *)
Definition calculate_ofc_kmer_with
    (_calculate_ocf : option (list csr_row -> Z * Z))
    (stores : list KmerSignature) (start_k stop_k : Z)
  : result (list float64 * Z) :=
  pairs ← mapM (fun ksize =>
      csr_matrix ← rebuild_sparse_matrix stores ksize;
      f ← from_option NameError _calculate_ocf;
      mret (f csr_matrix))
    (range start_k (stop_k + 1));
  let allPossibleKmer := pairs.*1 in
  let ocf := pairs.*2 in
  let percentage := percentage_of ocf allPossibleKmer in
  kmer ← choose_kmer percentage start_k;
  mret (percentage, kmer).

(** In [fsig.py] the definition of [_calculate_ocf] is commented out and no
    import binds the name: the module has no such global. *)
Definition calculate_ofc_kmer : list KmerSignature -> Z -> Z -> result (list float64 * Z) :=
  calculate_ofc_kmer_with None.

End FeatureFrequency.

(** ** The k-mer suggested by the common features (fsig.py, lines 402-419) *)

Module AcfKmer.
Import NP.

(** [np.hstack] of columns of shape (N, 1): the rows of the (N, K) array.
    numpy refuses an empty list of arrays, and columns of different
    heights. *)
Definition hstack (cols : list (list float64)) : result (list (list float64)) :=
  match cols with
  | [] => Raise ValueError
  | c :: rest =>
      if forallb (fun c' => (length c' =? length c)%nat) rest
      then mret (map (fun i => omap (fun col => col !! i) cols) (seq 0 (length c)))
      else Raise ValueError
  end.

Section WithInterpolation.

Variable interp1d : list float64 -> list float64 -> result (float64 -> float64).

Definition calculate_acf_kmer (stores : list KmerSignature) (start_k stop_k : Z)
  : result (list (list float64) * list float64) :=
  acfs ← mapM (fun ksize => CommonFeature.calculate_average_common_feature stores ksize)
            (range start_k (stop_k + 1));
  acfs ← hstack acfs;
  kmers ← mapM (fun acf =>
      Selector._find_yintercept interp1d (map of_int (range start_k (stop_k + 1)))
        acf (of_int 10))
    acfs;
  mret (acfs, kmers).

End WithInterpolation.

End AcfKmer.

(** ** What numpy promises of the join (fsig.py, lines 156-176) *)

Module Join.

(** A list in ascending order. *)
Fixpoint ascending (l : list Z) : bool :=
  match l with
  | a :: (b :: _) as t => (a <=? b)%Z && ascending t
  | _ => true
  end.

(** [idx] and [inv_idx] hold [n] positions below [n] each, and
    [idx[inv_idx[i]] = i] at every [i]: what [np.argsort] gives for
    [idx = argsort(h)] and [inv_idx = argsort(idx)]. *)
Definition inverse_permutations (n : nat) (idx inv_idx : list Z) : bool :=
  (length idx =? n)%nat && (length inv_idx =? n)%nat
  && forallb (fun q => (0 <=? q)%Z && (q <? Z.of_nat n)%Z) idx
  && forallb (fun i =>
       match inv_idx !! i with
       | Some p => (0 <=? p)%Z && bool_decide (idx !! Z.to_nat p = Some (Z.of_nat i))
       | None => false
       end) (seq 0 n).

(** The contract of [np.argsort] at the array [h]: [h[argsort(h)]] is in
    ascending order, and the argsort of the result is its inverse. *)
Definition argsort_contract (argsort : list Z -> list Z) (h : list Z) : bool :=
  inverse_permutations (length h) (argsort h) (argsort (argsort h))
  && match take_indices h (argsort h) with
     | Ok hs => ascending hs
     | Raise _ => false
     end.

End Join.

(** ** Concrete inputs *)

Module Inputs.
Import NP.

(** A signature file holding, for every k, the given keys once each. *)
Definition genome (keys : list Z) : KmerSignature :=
  Signature (fun _ => Some (CsrRow 4 (map (fun key => (key, 1%Z)) keys))).

(** The series of scenario C. *)
Definition scenario_x : list R := [3; 4; 5; 6; 7]%R.
Definition scenario_y : list R := [100; 80; 60; 40; 20]%R.

(** The largest and the smallest of a non-empty list of reals. *)
Definition rmax_list (l : list R) : R :=
  match l with
  | [] => 0
  | r :: rest => fold_left Rmax rest r
  end.

Definition rmin_list (l : list R) : R :=
  match l with
  | [] => 0
  | r :: rest => fold_left Rmin rest r
  end.

(** The sum of a list of reals. *)
Definition total (cs : list R) : R := fold_right Rplus 0%R cs.

(** The cubic spline through the points of scenario C, which lie on a
    line: the line itself. *)
Definition scenario_line (v : float64) : float64 :=
  sub (Finite 160) (mul (Finite 20) v).

Definition scenario_interp1d (x y : list float64) : result (float64 -> float64) :=
  Ok scenario_line.

(** The interpolant of a series that is zero everywhere: the zero
    function. *)
Definition flat_interp1d (x y : list float64) : result (float64 -> float64) :=
  Ok (fun _ => Finite 0).

(** A signature file holding the keys at the sizes from [kmin] to [kmax]
    only. *)
Definition genome_between (kmin kmax : Z) (keys : list Z) : KmerSignature :=
  Signature (fun k =>
    if ((kmin <=? k) && (k <=? kmax))%Z
    then Some (CsrRow 4 (map (fun key => (key, 1%Z)) keys))
    else None).

End Inputs.

(** ** An example of the join's imports *)

Module JoinExample.

(** Keys with two bits per base: dropping the first base of a k-mer, and
    dropping the last one. *)
Definition trimFront (keys : list Z) (ksize : Z) : list Z :=
  map (fun h => h mod 4 ^ (ksize - 1))%Z keys.

Definition trimBack (keys : list Z) : list Z := map (fun h => h / 4)%Z keys.

(** The position of a key in a sorted array: the number of smaller keys. *)
Definition search1 (a : list Z) (v : Z) : Z :=
  Z.of_nat (length (filter (fun x => (x < v)%Z) a)).

Definition searchsorted (a q : list Z) : list Z := map (search1 a) q.

(** A stable argsort, by insertion. *)
Fixpoint insert_by (key : Z -> Z) (i : Z) (l : list Z) : list Z :=
  match l with
  | [] => [i]
  | j :: t => if (key i <? key j)%Z then i :: l else j :: insert_by key i t
  end.

Definition argsort (h : list Z) : list Z :=
  let key := fun i => nth (Z.to_nat i) h 0%Z in
  fold_left (fun acc i => insert_by key i acc) (map Z.of_nat (seq 0 (length h))) [].

Definition int_log4 (n : Z) : Z := (Z.log2 n / 2)%Z.

(** The arrays of the sequence ATGCAC at k = 3, 2 and 1. *)
Definition array0 : csr_row := CsrRow 64 [(14, 1); (17, 1); (36, 1); (57, 1)]%Z.
Definition array1 : csr_row := CsrRow 16 [(1, 1); (3, 1); (4, 1); (9, 1); (14, 1)]%Z.
Definition array2 : csr_row := CsrRow 4 [(0, 2); (1, 2); (2, 1); (3, 1)]%Z.

End JoinExample.

(** * Properties *)

(** ** Arithmetic of [float64] *)

Module NPFacts.
Import NP.

Lemma div_finite (x y : R) :
  y <> 0%R -> div (Finite x) (Finite y) = Finite (x / y).
Proof.
  intros Hy. unfold div. destruct (Req_dec_T y 0) as [E | _]; [contradiction | reflexivity].
Qed.

Lemma div_by_zero_not_finite (x : R) :
  is_finite (div (Finite x) (Finite 0)) = false.
Proof.
  unfold div. destruct (Req_dec_T 0 0) as [_ | N]; [| contradiction N; reflexivity].
  destruct (Rlt_dec 0 x); [reflexivity |]. destruct (Rlt_dec x 0); reflexivity.
Qed.

Lemma div_of_int (a b : Z) :
  b <> 0%Z -> div (of_int a) (of_int b) = Finite (IZR a / IZR b).
Proof.
  intros Hb. apply div_finite. intros E. apply Hb. now apply eq_IZR_R0.
Qed.

Lemma log_base_finite (b x : R) :
  (0 < x)%R -> log_base b (Finite x) = Finite (ln x / ln b).
Proof.
  intros Hx. unfold log_base. destruct (Rlt_dec 0 x); [reflexivity | contradiction].
Qed.

Lemma div_pos_by_zero (x : R) : (0 < x)%R -> div (Finite x) (Finite 0) = PInf.
Proof.
  intros Hx. unfold div. destruct (Req_dec_T 0 0) as [_ | N]; [| lra].
  destruct (Rlt_dec 0 x); [reflexivity | lra].
Qed.

Lemma log_base_zero (b : R) : log_base b (Finite 0) = NInf.
Proof.
  unfold log_base. destruct (Rlt_dec 0 0); [lra |].
  destruct (Rlt_dec 0 0); [lra | reflexivity].
Qed.

Lemma mul_pos_inf (x : R) (i : float64) :
  (0 < x)%R -> is_finite i = false -> mul (Finite x) i = i.
Proof.
  intros Hx Hi. destruct i; try discriminate; simpl; try reflexivity;
    unfold scale_inf; destruct (Rlt_dec 0 x); (reflexivity || lra).
Qed.

Lemma add_comm (a b : float64) : add a b = add b a.
Proof. destruct a, b; simpl; try reflexivity. f_equal. ring. Qed.

Lemma add_assoc (a b c : float64) : add (add a b) c = add a (add b c).
Proof. destruct a, b, c; simpl; try reflexivity. f_equal. ring. Qed.

Lemma add_zero_l (a : float64) : add (Finite 0) a = a.
Proof. destruct a; simpl; try reflexivity. f_equal. ring. Qed.

Lemma add_zero_r (a : float64) : add a (Finite 0) = a.
Proof. rewrite add_comm. apply add_zero_l. Qed.

Lemma neg_add (a b : float64) : neg (add a b) = add (neg a) (neg b).
Proof. destruct a, b; simpl; try reflexivity. f_equal. ring. Qed.

Lemma mul_minus_one (a : float64) : mul a (of_int (-1)) = neg a.
Proof.
  destruct a; simpl; try reflexivity.
  - f_equal. ring.
  - unfold scale_inf. destruct (Rlt_dec 0 (-1)); [lra |].
    destruct (Rlt_dec (-1) 0); [reflexivity | lra].
  - unfold scale_inf. destruct (Rlt_dec 0 (-1)); [lra |].
    destruct (Rlt_dec (-1) 0); [reflexivity | lra].
Qed.

Lemma fold_add_acc (l : list float64) (acc : float64) :
  fold_left add l acc = add acc (sum l).
Proof.
  unfold sum. revert acc. induction l as [| x l IH]; intros acc; cbn [fold_left].
  - now rewrite add_zero_r.
  - rewrite (IH (add acc x)), (IH (add (Finite 0) x)), add_zero_l.
    apply add_assoc.
Qed.

Lemma sum_cons (x : float64) (l : list float64) : sum (x :: l) = add x (sum l).
Proof. unfold sum at 1. cbn [fold_left]. now rewrite fold_add_acc, add_zero_l. Qed.

Lemma sum_app (l1 l2 : list float64) : sum (l1 ++ l2) = add (sum l1) (sum l2).
Proof.
  induction l1 as [| x l1 IH]; cbn [app].
  - unfold sum at 2. cbn [fold_left]. now rewrite add_zero_l.
  - now rewrite !sum_cons, IH, add_assoc.
Qed.

(** Infinities and NaN absorb: a sum or product with one of them is never
    finite. *)
Lemma add_not_finite_l (a b : float64) :
  is_finite a = false -> is_finite (add a b) = false.
Proof. destruct a, b; simpl; congruence. Qed.

Lemma add_not_finite_r (a b : float64) :
  is_finite b = false -> is_finite (add a b) = false.
Proof. rewrite add_comm. apply add_not_finite_l. Qed.

Lemma scale_inf_not_finite (i : float64) (r : R) :
  is_finite i = false -> is_finite (scale_inf i r) = false.
Proof.
  intros Hi. unfold scale_inf.
  destruct (Rlt_dec 0 r); [assumption |].
  destruct (Rlt_dec r 0); [| reflexivity]. destruct i; simpl in *; congruence.
Qed.

Lemma mul_not_finite_r (a b : float64) :
  is_finite b = false -> is_finite (mul a b) = false.
Proof.
  destruct a, b; simpl; try congruence; intros _;
    apply scale_inf_not_finite; reflexivity.
Qed.

Lemma sum_not_finite (l : list float64) (v : float64) :
  In v l -> is_finite v = false -> is_finite (sum l) = false.
Proof.
  induction l as [| x l IH]; simpl; [tauto |].
  intros [-> | Hin] Hv; rewrite sum_cons.
  - now apply add_not_finite_l.
  - apply add_not_finite_r. now apply IH.
Qed.

End NPFacts.

(** ** Common features *)

Module CommonFeatureFacts.
Import NP NPFacts CommonFeature Inputs.

Lemma shared_keys_comm (mi mj : csr_row) : shared_keys mi mj = shared_keys mj mi.
Proof.
  unfold shared_keys. cbv zeta. f_equal. f_equal.
  apply (comm_L (∩)).
Qed.

(** C10: the pairwise mode does not depend on the order of its two
    signature files: swapping [store1] and [store2] gives the same count of
    shared keys, and the same failure when one of them lacks the index. *)
Theorem pair_calculate_average_common_feature_symmetric
    (store1 store2 : KmerSignature) (ksize : Z) :
  pair_calculate_average_common_feature store1 store2 ksize
  = pair_calculate_average_common_feature store2 store1 ksize.
Proof.
  unfold pair_calculate_average_common_feature, get_sparse_array.
  destruct (stored store1 ksize) as [mi |], (stored store2 ksize) as [mj |];
    cbn; try reflexivity.
  f_equal. apply shared_keys_comm.
Qed.

(** *** The batch entries are the pairwise counts *)

Lemma sumZ_acc (l : list Z) (acc : Z) : fold_left Z.add l acc = (acc + sumZ l)%Z.
Proof.
  unfold sumZ. revert acc. induction l as [| x l IH]; intros acc; cbn [fold_left].
  - lia.
  - rewrite (IH (acc + x)%Z), (IH (0 + x)%Z). lia.
Qed.

Lemma sumZ_cons (x : Z) (l : list Z) : sumZ (x :: l) = (x + sumZ l)%Z.
Proof. unfold sumZ at 1. cbn [fold_left]. rewrite sumZ_acc. lia. Qed.

Lemma row_dot_ones (r1 r2 : csr_row) :
  row_dot (ones r1) (ones r2)
  = sumZ (map (fun c1 => sumZ (map (fun c2 => if (c1 =? c2)%Z then 1%Z else 0%Z)
                                   (indices r2)))
              (indices r1)).
Proof.
  unfold row_dot, ones, indices. cbn [entries].
  change (fmap ?f ?l) with (map f l). rewrite !map_map.
  apply f_equal, map_ext. intros e1. rewrite !map_map. reflexivity.
Qed.

(** A key occurs once in a list without repetition. *)
Lemma count_in_nodup (c : Z) (l : list Z) :
  NoDup l ->
  sumZ (map (fun c2 => if (c =? c2)%Z then 1%Z else 0%Z) l)
  = if decide (c ∈ l) then 1%Z else 0%Z.
Proof.
  induction 1 as [| x l Hx Hl IH]; [reflexivity |].
  cbn [map]. rewrite sumZ_cons, IH.
  destruct (Z.eqb_spec c x) as [-> | Hne];
    destruct (decide (_ ∈ l)) as [Hl' | Hl'];
    destruct (decide (_ ∈ x :: l)) as [Hxl | Hxl]; try lia;
    exfalso; set_solver.
Qed.

Lemma count_shared_nodup (l1 l2 : list Z) :
  NoDup l1 ->
  sumZ (map (fun c => if decide (c ∈ l2) then 1%Z else 0%Z) l1)
  = Z.of_nat (size ((list_to_set l1 : gset Z) ∩ list_to_set l2)).
Proof.
  induction 1 as [| x l1 Hx Hl IH].
  - cbn. rewrite intersection_empty_l_L, size_empty. reflexivity.
  - cbn [map list_to_set]. rewrite sumZ_cons, IH.
    replace (({[x]} ∪ list_to_set l1) ∩ list_to_set l2 : gset Z)
      with (({[x]} ∩ list_to_set l2) ∪ (list_to_set l1 ∩ list_to_set l2) : gset Z)
      by set_solver.
    rewrite (size_union ({[x]} ∩ list_to_set l2) (list_to_set l1 ∩ list_to_set l2))
      by set_solver.
    destruct (decide (x ∈ l2)) as [Hin | Hnin].
    + replace ({[x]} ∩ list_to_set l2 : gset Z) with ({[x]} : gset Z) by set_solver.
      rewrite size_singleton. lia.
    + replace ({[x]} ∩ list_to_set l2 : gset Z) with (∅ : gset Z) by set_solver.
      rewrite size_empty. lia.
Qed.

(** When no key is stored twice in a row, the entry that the batch estimator
    computes for two rows is the count that the pairwise mode returns for
    them. *)
Lemma row_dot_ones_shared_keys (r1 r2 : csr_row) :
  NoDup (indices r1) -> NoDup (indices r2) ->
  row_dot (ones r1) (ones r2) = shared_keys r1 r2.
Proof.
  intros H1 H2. rewrite row_dot_ones.
  rewrite (map_ext _ (fun c => if decide (c ∈ indices r2) then 1%Z else 0%Z))
    by (intros c; now apply count_in_nodup).
  now apply count_shared_nodup.
Qed.

Lemma row_dot_ones_shared_keys_witness :
  row_dot (ones (CsrRow 4 [(0, 5); (1, 2); (2, 1)]%Z)) (ones (CsrRow 4 [(2, 7); (3, 1)]%Z))
  = shared_keys (CsrRow 4 [(0, 5); (1, 2); (2, 1)]%Z) (CsrRow 4 [(2, 7); (3, 1)]%Z).
Proof.
  apply row_dot_ones_shared_keys; cbn; repeat constructor; set_solver.
Defined.

(** *** What the batch estimator computes *)

Lemma mapM_ok_map {A B : Type} (f : A -> result B) (g : A -> B) (l : list A) :
  (forall x, In x l -> f x = Ok (g x)) -> mapM f l = Ok (map g l).
Proof.
  induction l as [| x l IH]; intros H; [reflexivity |].
  cbn [mapM map]. rewrite (H x) by now left.
  cbn [mbind result_bind]. rewrite IH by (intros y Hy; apply H; now right).
  reflexivity.
Qed.

Lemma rebuild_sparse_matrix_rows
    (stores : list KmerSignature) (ksize : Z) (rows : list csr_row) :
  Forall2 (fun store row => stored store ksize = Some row) stores rows ->
  rebuild_sparse_matrix stores ksize = Ok rows.
Proof.
  unfold rebuild_sparse_matrix.
  induction 1 as [| store row stores rows Hrow _ IH]; [reflexivity |].
  cbn [mapM].
  change (get_sparse_array store ksize) with (from_option KeyError (stored store ksize)).
  rewrite Hrow.
  cbn [from_option mbind result_bind]. rewrite IH. reflexivity.
Qed.

(** For every collection whose files are indexed at [ksize] and store no key
    twice, row [i] of the batch estimator is the sum over the other genomes
    of the pairwise shared-key counts, divided by N - 1. *)
Theorem batch_rows_sum_pairwise_counts
    (stores : list KmerSignature) (ksize : Z) (rows : list csr_row) :
  Forall2 (fun store row => stored store ksize = Some row) stores rows ->
  Forall (fun row => NoDup (indices row)) rows ->
  calculate_average_common_feature stores ksize
  = Ok (map (fun i => div (of_int (shared_with_others rows i))
                          (of_int (Z.of_nat (length rows) - 1)))
            (seq 0 (length rows))).
Proof.
  intros Hrows Hnodup. unfold calculate_average_common_feature.
  rewrite (rebuild_sparse_matrix_rows _ _ _ Hrows). cbn [mbind result_bind].
  erewrite mapM_ok_map with (g := shared_with_others rows).
  - cbn [mbind result_bind]. unfold mret, result_ret, divide_by_norm.
    now rewrite map_map.
  - intros i Hi. apply in_seq in Hi.
    destruct (lookup_lt_is_Some_2 rows i) as [ri Hri]; [lia |].
    unfold shared_with_others. rewrite Hri.
    change (map ones rows) with (fmap ones rows) at 1.
    rewrite list_lookup_fmap, Hri. cbn [fmap option_fmap option_map from_option
      mbind result_bind]. unfold mret, result_ret. do 3 f_equal.
    unfold dot_transpose. rewrite map_map. apply map_ext_in.
    rewrite Forall_forall in Hnodup.
    assert (Hnodup_i : NoDup (indices ri)).
    { apply Hnodup. eapply list_elem_of_lookup_2. eassumption. }
    intros rj Hrj. apply list_elem_of_In, Hnodup in Hrj.
    rewrite row_dot_ones.
    rewrite (map_ext _ (fun c => if decide (c ∈ indices ri) then 1%Z else 0%Z))
      by (intros c; now apply count_in_nodup).
    now apply count_shared_nodup.
Qed.

Lemma batch_rows_sum_pairwise_counts_witness :
  calculate_average_common_feature [genome [0; 1; 2]; genome [2; 3]]%Z 1
  = Ok (map (fun i =>
               div (of_int (shared_with_others
                              [CsrRow 4 [(0, 1); (1, 1); (2, 1)]; CsrRow 4 [(2, 1); (3, 1)]]%Z
                              i))
                   (of_int (Z.of_nat 2 - 1)))
            (seq 0 2)).
Proof.
  apply (batch_rows_sum_pairwise_counts [genome [0; 1; 2]; genome [2; 3]]%Z 1
           [CsrRow 4 [(0, 1); (1, 1); (2, 1)]; CsrRow 4 [(2, 1); (3, 1)]]%Z).
  - repeat constructor.
  - repeat constructor; cbn; set_solver.
Defined.

(** *** What the streaming estimator computes *)

Section Lowmem.

Variable stores : list KmerSignature.
Variable ksize : Z.

(** Every file has the index at [ksize]. *)
Hypothesis indexed : forall store, In store stores -> is_Some (stored store ksize).

Lemma lowmem_inner_same (i : nat) (st : lowmem_state) (rowVal : Z) :
  lowmem_inner stores ksize i i (st, rowVal) = Ok (st, rowVal).
Proof. unfold lowmem_inner. now rewrite Nat.eqb_refl. Qed.

Lemma lowmem_inner_other (i j : nat) (st : lowmem_state) (rowVal : Z) :
  i <> j -> (i < length stores)%nat ->
  ((j < i)%nat -> is_Some (memoize st !! (j, i))) ->
  lowmem_inner stores ksize i j (st, rowVal)
  = Ok (LowmemState (<[(i, j) := own_keys stores ksize i]> (memoize st))
                    (computed st ++ [(i, j)]),
        (rowVal + own_keys stores ksize i)%Z).
Proof using indexed.
  intros Hij Hi Hmemo. unfold lowmem_inner, own_keys.
  destruct (Nat.eqb_spec i j) as [| _]; [contradiction |].
  destruct (lookup_lt_is_Some_2 stores i Hi) as [store Hstore].
  rewrite Hstore. cbn [from_option mbind result_bind].
  destruct (indexed store) as [row Hrow];
    [apply list_elem_of_In; eapply list_elem_of_lookup_2; eassumption |].
  unfold get_sparse_array. rewrite Hrow. cbn [from_option mbind result_bind].
  destruct (Nat.ltb_spec j i) as [Hlt | _]; [| reflexivity].
  destruct (Hmemo Hlt) as [v ->]. reflexivity.
Qed.

(** The inner loop over any positions [js]: each position other than [i]
    adds the number of keys of file [i] itself, and one intersection. *)
Lemma lowmem_inner_loop (i : nat) (js : list nat) (st : lowmem_state) (rowVal : Z) :
  (i < length stores)%nat ->
  (forall j, In j js -> (j < i)%nat -> is_Some (memoize st !! (j, i))) ->
  exists st',
    for_loop (lowmem_inner stores ksize i) js (st, rowVal)
    = Ok (st', (rowVal + own_keys stores ksize i
                         * Z.of_nat (length (filter (fun j => j <> i) js)))%Z)
    /\ computed st' = computed st ++ map (pair i) (filter (fun j => j <> i) js)
    /\ (forall key, is_Some (memoize st !! key) -> is_Some (memoize st' !! key))
    /\ (forall j, In j js -> j <> i -> is_Some (memoize st' !! (i, j))).
Proof using indexed.
  intros Hi. revert st rowVal.
  induction js as [| j js IH]; intros st rowVal Hmemo.
  - exists st. cbn. rewrite app_nil_r.
    split; [| split; [reflexivity | split; [auto | intros j []]]].
    unfold mret, result_ret. do 2 f_equal. lia.
  - cbn [for_loop].
    destruct (decide (j = i)) as [-> | Hne].
    + rewrite lowmem_inner_same. cbn [mbind result_bind].
      rewrite filter_cons_False by (intros H; now apply H).
      destruct (IH st rowVal) as (st' & Hrun & Hcomp & Hkeep & Hnew).
      { intros j Hj. apply Hmemo. now right. }
      exists st'. repeat split; try assumption.
      intros j [<- | Hj] Hji; [contradiction | now apply Hnew].
    + rewrite lowmem_inner_other; [| congruence | assumption | apply Hmemo; now left].
      cbn [mbind result_bind].
      rewrite filter_cons_True by assumption.
      set (st1 := LowmemState _ _).
      destruct (IH st1 (rowVal + own_keys stores ksize i)%Z)
        as (st' & Hrun & Hcomp & Hkeep & Hnew).
      { intros j' Hj' Hlt. unfold st1. cbn [memoize].
        destruct (decide ((i, j) = (j', i))) as [-> | Hk].
        - rewrite lookup_insert_eq. eauto.
        - rewrite lookup_insert_ne by assumption. apply Hmemo; [now right | assumption]. }
      exists st'. split; [| split; [| split]].
      * rewrite Hrun. cbn [length]. do 2 f_equal. lia.
      * rewrite Hcomp. unfold st1. cbn [computed map]. now rewrite <- app_assoc.
      * intros key Hkey. apply Hkeep. unfold st1. cbn [memoize].
        destruct (decide ((i, j) = key)) as [<- | Hk].
        -- rewrite lookup_insert_eq. eauto.
        -- now rewrite lookup_insert_ne.
      * intros j' [<- | Hj'] Hji; [| now apply Hnew].
        apply Hkeep. unfold st1. cbn [memoize]. rewrite lookup_insert_eq. eauto.
Qed.

Lemma length_others_above (a n i : nat) :
  (i < a)%nat -> length (filter (fun j => j <> i) (seq a n)) = n.
Proof.
  revert a. induction n as [| n IH]; intros a Hi; [reflexivity |].
  cbn [seq]. rewrite filter_cons_True by lia. cbn [length]. rewrite IH; lia.
Qed.

Lemma length_others_within (a n i : nat) :
  (a <= i < a + n)%nat -> length (filter (fun j => j <> i) (seq a n)) = (n - 1)%nat.
Proof.
  revert a. induction n as [| n IH]; intros a Hi; [lia |].
  cbn [seq]. destruct (decide (a = i)) as [-> | Hne].
  - rewrite filter_cons_False by (intros H; now apply H).
    rewrite length_others_above; lia.
  - rewrite filter_cons_True by assumption. cbn [length]. rewrite IH; lia.
Qed.

Lemma length_others (i : nat) :
  (i < length stores)%nat -> length (others (length stores) i) = (length stores - 1)%nat.
Proof. intros Hi. apply length_others_within. lia. Qed.

Lemma lowmem_outer_eq (i : nat) (st : lowmem_state) (vals : list Z) :
  lowmem_outer stores ksize i (st, vals)
  = ('(st', rowVal) ← for_loop (lowmem_inner stores ksize i)
                        (seq 0 (length stores)) (st, 0%Z);
     mret (st', vals ++ [rowVal])).
Proof. reflexivity. Qed.

(** The outer loop from position [a] on, once the table holds every pair
    whose first position is below [a]. *)
Lemma lowmem_outer_loop (n a : nat) (st : lowmem_state) (vals : list Z) :
  (a + n = length stores)%nat ->
  (forall p q, (p < a)%nat -> (q < length stores)%nat -> q <> p ->
               is_Some (memoize st !! (p, q))) ->
  exists st',
    for_loop (lowmem_outer stores ksize) (seq a n) (st, vals)
    = Ok (st', vals ++ map (fun i => (own_keys stores ksize i
                                      * (Z.of_nat (length stores) - 1))%Z) (seq a n))
    /\ computed st'
       = computed st
         ++ flat_map (fun i => map (pair i) (others (length stores) i)) (seq a n).
Proof using indexed.
  revert a st vals. induction n as [| n IH]; intros a st vals Han Hinv.
  - exists st. cbn. now rewrite !app_nil_r.
  - cbn [seq for_loop]. rewrite lowmem_outer_eq.
    destruct (lowmem_inner_loop a (seq 0 (length stores)) st 0%Z)
      as (st1 & Hrun & Hcomp & Hkeep & Hnew); [lia | |].
    { intros j Hj Hlt. apply Hinv; [assumption | lia | lia]. }
    rewrite Hrun. cbn [mbind result_bind mret result_ret].
    destruct (IH (S a) st1 (vals ++ [(0 + own_keys stores ksize a
        * Z.of_nat (length (filter (fun j => j <> a) (seq 0 (length stores)))))%Z]))
      as (st' & Hrun' & Hcomp'); [lia | |].
    { intros p q Hp Hq Hqp. destruct (decide (p = a)) as [-> | Hpa].
      - apply Hnew; [| assumption]. apply in_seq. lia.
      - apply Hkeep, Hinv; [lia | assumption | assumption]. }
    exists st'. split.
    + rewrite Hrun'. cbn [map]. rewrite <- app_assoc. cbn [app].
      do 3 f_equal. fold (others (length stores) a).
      rewrite length_others by lia. rewrite Z.add_0_l. do 2 f_equal. lia.
    + rewrite Hcomp', Hcomp. cbn [flat_map]. now rewrite <- app_assoc.
Qed.

(** The streaming estimator, on any collection whose files are indexed at
    [ksize]: row [i] sums, N - 1 times, the number of keys of genome [i]
    itself, and the intersection is computed at every ordered pair of
    distinct positions. *)
Lemma lowmem_run_value :
  exists st,
    lowmem_run stores ksize
    = Ok (st, map (fun i => (own_keys stores ksize i
                             * (Z.of_nat (length stores) - 1))%Z)
                  (seq 0 (length stores)))
    /\ computed st = ordered_pairs (length stores).
Proof using indexed.
  unfold lowmem_run.
  destruct (lowmem_outer_loop (length stores) 0 (LowmemState ∅ []) [])
    as (st & Hrun & Hcomp); [lia | intros p q Hp; lia |].
  exists st. split; assumption.
Qed.

End Lowmem.

Lemma length_ordered_pairs_from (n : nat) (l : list nat) :
  (forall i, In i l -> (i < n)%nat) ->
  length (flat_map (fun i => map (pair i) (others n i)) l) = (length l * (n - 1))%nat.
Proof.
  induction l as [| i l IH]; intros Hl; [reflexivity |].
  cbn [flat_map length]. rewrite length_app, length_map, IH
    by (intros j Hj; apply Hl; now right).
  unfold others. rewrite length_others_within by (specialize (Hl i (or_introl eq_refl)); lia).
  lia.
Qed.

Lemma length_ordered_pairs (n : nat) : length (ordered_pairs n) = (n * (n - 1))%nat.
Proof.
  unfold ordered_pairs. rewrite length_ordered_pairs_from, length_seq; [reflexivity |].
  intros i Hi. apply in_seq in Hi. lia.
Qed.

(** For every collection of at least two files indexed at [ksize], the
    streaming estimator returns, for each genome, the number of distinct keys
    of that genome itself: what it sums are intersections of [stores[i]] with
    [stores[i]]. *)
Theorem lowmem_returns_own_key_counts (stores : list KmerSignature) (ksize : Z) :
  (2 <= length stores)%nat ->
  (forall store, In store stores -> is_Some (stored store ksize)) ->
  lowmem_calculate_average_common_feature stores ksize
  = Ok (map (fun i => Finite (IZR (own_keys stores ksize i))) (seq 0 (length stores))).
Proof.
  intros Hlen Hidx. unfold lowmem_calculate_average_common_feature.
  destruct (lowmem_run_value stores ksize Hidx) as (st & -> & _).
  cbn [mbind result_bind]. unfold mret, result_ret. f_equal.
  unfold divide_by_norm. rewrite map_map. apply map_ext. intros i.
  rewrite div_of_int by lia. f_equal.
  rewrite mult_IZR. field. apply not_0_IZR. lia.
Qed.

Lemma lowmem_returns_own_key_counts_witness :
  lowmem_calculate_average_common_feature [genome [0; 1; 2]; genome [2; 3]]%Z 1
  = Ok (map (fun i => Finite (IZR (own_keys [genome [0; 1; 2]; genome [2; 3]]%Z 1 i)))
            (seq 0 2)).
Proof.
  apply (lowmem_returns_own_key_counts [genome [0; 1; 2]; genome [2; 3]]%Z 1).
  - cbn. lia.
  - intros store [<- | [<- | []]]; eexists; reflexivity.
Defined.

(** For every collection of N files indexed at [ksize], the streaming
    estimator computes the set intersection at every ordered pair of distinct
    positions, N (N - 1) times in all: twice for each unordered pair. *)
Theorem lowmem_computes_every_ordered_pair (stores : list KmerSignature) (ksize : Z) :
  (forall store, In store stores -> is_Some (stored store ksize)) ->
  exists st vals,
    lowmem_run stores ksize = Ok (st, vals)
    /\ computed st = ordered_pairs (length stores)
    /\ length (computed st) = (length stores * (length stores - 1))%nat.
Proof.
  intros Hidx. destruct (lowmem_run_value stores ksize Hidx) as (st & Hrun & Hcomp).
  exists st. eexists. split; [exact Hrun |]. split; [exact Hcomp |].
  rewrite Hcomp. apply length_ordered_pairs.
Qed.

Lemma lowmem_computes_every_ordered_pair_witness :
  exists st vals,
    lowmem_run [genome [0; 1; 2]; genome [2; 3]; genome [3]]%Z 1 = Ok (st, vals)
    /\ computed st = ordered_pairs 3
    /\ length (computed st) = (3 * (3 - 1))%nat.
Proof.
  apply (lowmem_computes_every_ordered_pair
           [genome [0; 1; 2]; genome [2; 3]; genome [3]]%Z 1).
  intros store [<- | [<- | [<- | []]]]; eexists; reflexivity.
Defined.

Ltac finite_div :=
  repeat (rewrite div_of_int by discriminate); repeat f_equal; try lra.

(** C1, at a collection of two genomes with keys {0, 1, 2} and {2, 3}, k = 1:
    the batch estimator returns [1, 1] and the pairwise mode 1 (the one
    shared key), but the streaming estimator returns [3, 2], the number of
    keys of each genome itself, because it intersects [stores[i]] with
    [stores[i]].  The two array-producing modes disagree. *)
Theorem common_feature_modes_disagree :
  let stores := [genome [0; 1; 2]; genome [2; 3]]%Z in
  calculate_average_common_feature stores 1 = Ok [Finite 1; Finite 1]
  /\ lowmem_calculate_average_common_feature stores 1 = Ok [Finite 3; Finite 2]
  /\ pair_calculate_average_common_feature (genome [0; 1; 2]%Z) (genome [2; 3]%Z) 1
     = Ok 1%Z
  /\ calculate_average_common_feature stores 1
     <> lowmem_calculate_average_common_feature stores 1.
Proof.
  cbv zeta.
  assert (Hb : calculate_average_common_feature [genome [0; 1; 2]; genome [2; 3]]%Z 1
               = Ok [Finite 1; Finite 1]).
  { change (Ok (divide_by_norm [1; 1]%Z 1) = Ok [Finite 1; Finite 1]).
    unfold divide_by_norm. cbn [map]. finite_div. }
  assert (Hl : lowmem_calculate_average_common_feature [genome [0; 1; 2]; genome [2; 3]]%Z 1
               = Ok [Finite 3; Finite 2]).
  { assert (Hrun : exists st, lowmem_run [genome [0; 1; 2]; genome [2; 3]]%Z 1
                              = Ok (st, [3; 2]%Z)).
    { eexists. vm_compute. reflexivity. }
    destruct Hrun as [st Hrun].
    unfold lowmem_calculate_average_common_feature. rewrite Hrun.
    change (Ok (divide_by_norm [3; 2]%Z 1) = Ok [Finite 3; Finite 2]).
    unfold divide_by_norm. cbn [map]. finite_div. }
  split; [exact Hb |]. split; [exact Hl |]. split; [vm_compute; reflexivity |].
  rewrite Hb, Hl. intros E. injection E as E1 E2. lra.
Qed.

(** C4, at a collection of three genomes, k = 1: the streaming estimator
    computes the set intersection at all six ordered pairs, so twice for each
    unordered pair, and its table ends with a key for each of them, among
    which (1, 0), (2, 0) and (2, 1) have i > j: the value it reads from the
    table when j < i is overwritten by a fresh intersection. *)
Theorem lowmem_recomputes_every_pair :
  let stores := [genome [0; 1; 2]; genome [2; 3]; genome [3]]%Z in
  exists st vals,
    lowmem_run stores 1 = Ok (st, vals)
    /\ computed st = [(0, 1); (0, 2); (1, 0); (1, 2); (2, 0); (2, 1)]%nat
    /\ size (memoize st) = 6%nat
    /\ memoize st !! (1, 0)%nat = Some 2%Z
    /\ memoize st !! (2, 0)%nat = Some 1%Z
    /\ memoize st !! (2, 1)%nat = Some 1%Z
    /\ vals = [6; 4; 2]%Z.
Proof.
  cbv zeta. eexists _, _. split; [vm_compute; reflexivity |].
  repeat split; vm_compute; reflexivity.
Qed.

End CommonFeatureFacts.

(** ** Relative entropy *)

Module RelativeEntropyFacts.
Import NP NPFacts RelativeEntropy.

Lemma factorized_cons a f b m ARes FRes BRes MRes norm0 norm1 norm2 :
  factorized (a :: ARes) (f :: FRes) (b :: BRes) (m :: MRes) norm0 norm1 norm2
  = add (factorized_term a f b m norm0 norm1 norm2)
        (factorized ARes FRes BRes MRes norm0 norm1 norm2).
Proof. unfold factorized. cbn [zip_with map]. now rewrite sum_cons. Qed.

Lemma paper_formula_cons a f b m ARes FRes BRes MRes norm0 norm1 norm2 :
  paper_formula (a :: ARes) (f :: FRes) (b :: BRes) (m :: MRes) norm0 norm1 norm2
  = add (paper_term a f b m norm0 norm1 norm2)
        (paper_formula ARes FRes BRes MRes norm0 norm1 norm2).
Proof. unfold paper_formula. cbn [zip_with map]. now rewrite sum_cons. Qed.

Lemma factorized_nil ARes FRes BRes MRes norm0 norm1 norm2 :
  ARes = [] \/ FRes = [] \/ BRes = [] \/ MRes = [] ->
  factorized ARes FRes BRes MRes norm0 norm1 norm2 = Finite 0.
Proof.
  unfold factorized.
  destruct ARes, FRes, BRes, MRes; try reflexivity.
  intros [H | [H | [H | H]]]; discriminate.
Qed.

Lemma paper_formula_nil ARes FRes BRes MRes norm0 norm1 norm2 :
  ARes = [] \/ FRes = [] \/ BRes = [] \/ MRes = [] ->
  paper_formula ARes FRes BRes MRes norm0 norm1 norm2 = Finite 0.
Proof.
  unfold paper_formula.
  destruct ARes, FRes, BRes, MRes; try reflexivity.
  intros [H | [H | [H | H]]]; discriminate.
Qed.

Section Positive.
Open Scope R_scope.

Variables a f b m norm0 norm1 norm2 : Z.
Hypothesis a_pos : (0 < a)%Z.
Hypothesis f_pos : (0 < f)%Z.
Hypothesis b_pos : (0 < b)%Z.
Hypothesis m_pos : (0 < m)%Z.
Hypothesis norm0_pos : (0 < norm0)%Z.
Hypothesis norm1_pos : (0 < norm1)%Z.
Hypothesis norm2_pos : (0 < norm2)%Z.

Let ra := IZR a.
Let rf := IZR f.
Let rb := IZR b.
Let rm := IZR m.
Let n0 := IZR norm0.
Let n1 := IZR norm1.
Let n2 := IZR norm2.

Local Lemma reals_pos :
  0 < ra /\ 0 < rf /\ 0 < rb /\ 0 < rm /\ 0 < n0 /\ 0 < n1 /\ 0 < n2.
Proof using a_pos f_pos b_pos m_pos norm0_pos norm1_pos norm2_pos.
  repeat split; apply (IZR_lt 0); assumption.
Qed.

Lemma factorized_term_value :
  factorized_term a f b m norm0 norm1 norm2
  = Finite (ra / n0 * (ln (ra / (rf * rb / rm)) / ln 2
                       + ln (n1 * n1 / (n2 * n0)) / ln 2)).
Proof using a_pos f_pos b_pos m_pos norm0_pos norm1_pos norm2_pos.
  destruct reals_pos as (Ha & Hf & Hb & Hm & H0 & H1 & H2).
  unfold factorized_term, of_int, log2.
  rewrite Z.pow_2_r, !mult_IZR. fold ra rf rb rm n0 n1 n2.
  assert (Hfb : 0 < rf * rb) by now apply Rmult_lt_0_compat.
  assert (He : 0 < rf * rb / rm) by now apply Rdiv_lt_0_compat.
  assert (Hn : 0 < n2 * n0) by now apply Rmult_lt_0_compat.
  rewrite (div_finite (rf * rb) rm) by lra.
  rewrite (div_finite ra (rf * rb / rm)) by lra.
  rewrite (div_finite (n1 * n1) (n2 * n0)) by lra.
  rewrite (div_finite ra n0) by lra.
  rewrite !log_base_finite.
  - reflexivity.
  - apply Rdiv_lt_0_compat; [now apply Rmult_lt_0_compat | assumption].
  - now apply Rdiv_lt_0_compat.
Qed.

Lemma paper_term_value :
  paper_term a f b m norm0 norm1 norm2
  = Finite (ra / n0 * (ln (ra / n0 / (rf / n1 * (rb / n1) / (rm / n2))) / ln 2)).
Proof using a_pos f_pos b_pos m_pos norm0_pos norm1_pos norm2_pos.
  destruct reals_pos as (Ha & Hf & Hb & Hm & H0 & H1 & H2).
  unfold paper_term, of_int, log2. cbv zeta. fold ra rf rb rm n0 n1 n2.
  assert (Hf1 : 0 < rf / n1) by now apply Rdiv_lt_0_compat.
  assert (Hb1 : 0 < rb / n1) by now apply Rdiv_lt_0_compat.
  assert (Hm2 : 0 < rm / n2) by now apply Rdiv_lt_0_compat.
  assert (Ha0 : 0 < ra / n0) by now apply Rdiv_lt_0_compat.
  assert (Hfb : 0 < rf / n1 * (rb / n1)) by now apply Rmult_lt_0_compat.
  assert (He : 0 < rf / n1 * (rb / n1) / (rm / n2)) by now apply Rdiv_lt_0_compat.
  rewrite (div_finite ra n0), (div_finite rf n1), (div_finite rb n1),
    (div_finite rm n2) by lra.
  cbn [mul].
  rewrite (div_finite (rf / n1 * (rb / n1)) (rm / n2)) by lra.
  rewrite (div_finite (ra / n0)) by lra.
  rewrite log_base_finite by now apply Rdiv_lt_0_compat.
  reflexivity.
Qed.

(** The two contributions are the same real number: the logarithm of a
    product is the sum of the logarithms. *)
Lemma factorized_term_eq_paper_term :
  factorized_term a f b m norm0 norm1 norm2 = paper_term a f b m norm0 norm1 norm2.
Proof using a_pos f_pos b_pos m_pos norm0_pos norm1_pos norm2_pos.
  rewrite factorized_term_value, paper_term_value.
  destruct reals_pos as (Ha & Hf & Hb & Hm & H0 & H1 & H2).
  f_equal. f_equal.
  rewrite <- Rdiv_plus_distr, <- ln_mult.
  - f_equal. f_equal. field. repeat split; lra.
  - apply Rdiv_lt_0_compat; [assumption |].
    apply Rdiv_lt_0_compat; [now apply Rmult_lt_0_compat | assumption].
  - apply Rdiv_lt_0_compat; now apply Rmult_lt_0_compat.
Qed.

End Positive.

(** C6: for positive observed, front, back and middle counts and positive
    norms, the factorized formula of [_calculate_re_vectorize] equals the
    per-symbol relative-entropy sum of the paper, over exact real
    arithmetic. *)
Theorem factorized_eq_paper_formula
    (ARes FRes BRes MRes : list Z) (norm0 norm1 norm2 : Z) :
  Forall (fun a => 0 < a)%Z ARes ->
  Forall (fun f => 0 < f)%Z FRes ->
  Forall (fun b => 0 < b)%Z BRes ->
  Forall (fun m => 0 < m)%Z MRes ->
  (0 < norm0)%Z -> (0 < norm1)%Z -> (0 < norm2)%Z ->
  factorized ARes FRes BRes MRes norm0 norm1 norm2
  = paper_formula ARes FRes BRes MRes norm0 norm1 norm2.
Proof.
  intros HA HF HB HM H0 H1 H2.
  revert FRes BRes MRes HF HB HM.
  induction HA as [| a ARes Ha HA IH]; intros FRes BRes MRes HF HB HM.
  - rewrite factorized_nil, paper_formula_nil by auto. reflexivity.
  - destruct HF as [| f FRes Hf HF];
      [rewrite factorized_nil, paper_formula_nil by auto; reflexivity |].
    destruct HB as [| b BRes Hb HB];
      [rewrite factorized_nil, paper_formula_nil by auto; reflexivity |].
    destruct HM as [| m MRes Hm HM];
      [rewrite factorized_nil, paper_formula_nil by auto; reflexivity |].
    rewrite factorized_cons, paper_formula_cons.
    rewrite factorized_term_eq_paper_term by assumption.
    f_equal. now apply IH.
Qed.

Lemma factorized_eq_paper_formula_witness :
  factorized [3; 1]%Z [2; 4]%Z [4; 1]%Z [2; 3]%Z 4 6 5
  = paper_formula [3; 1]%Z [2; 4]%Z [4; 1]%Z [2; 3]%Z 4 6 5.
Proof.
  apply factorized_eq_paper_formula; repeat constructor.
Defined.

(** *** A zero middle count *)

Lemma div_by_not_finite (x : R) (e : float64) :
  is_finite e = false -> div (Finite x) e = Finite 0 \/ div (Finite x) e = NaN.
Proof. destruct e; simpl; intros E; try discriminate; auto. Qed.

Lemma log2_zero_or_nan (q : float64) :
  q = Finite 0 \/ q = NaN -> is_finite (log2 q) = false.
Proof.
  intros [-> | ->]; [| reflexivity]. unfold log2, log_base.
  destruct (Rlt_dec 0 0); [lra |]. destruct (Rlt_dec 0 0); [lra | reflexivity].
Qed.

Lemma factorized_term_zero_middle (a f b norm0 norm1 norm2 : Z) :
  is_finite (factorized_term a f b 0 norm0 norm1 norm2) = false.
Proof.
  unfold factorized_term.
  apply mul_not_finite_r, add_not_finite_l, log2_zero_or_nan, div_by_not_finite.
  apply div_by_zero_not_finite.
Qed.

Lemma factorized_zero_middle (ARes FRes BRes MRes : list Z) (norm0 norm1 norm2 : Z) :
  length ARes = length FRes -> length FRes = length BRes ->
  length BRes = length MRes -> In 0%Z MRes ->
  is_finite (factorized ARes FRes BRes MRes norm0 norm1 norm2) = false.
Proof.
  revert ARes FRes BRes.
  induction MRes as [| m MRes IH]; intros ARes FRes BRes HAF HFB HBM Hin;
    [destruct Hin |].
  destruct BRes as [| b BRes]; [discriminate |].
  destruct FRes as [| f FRes]; [discriminate |].
  destruct ARes as [| a ARes]; [discriminate |].
  rewrite factorized_cons.
  destruct Hin as [-> | Hin].
  - apply add_not_finite_l, factorized_term_zero_middle.
  - apply add_not_finite_r, IH; simpl in *; congruence.
Qed.

(** C2, as the code has it: when an aligned middle count is zero the
    computation raises nothing; the division by zero follows numpy's float
    rules, and the scalar it returns is an infinity or NaN. *)
Theorem zero_middle_count_not_finite
    (ARes FRes BRes MRes data1 data2 : list Z) :
  length ARes = length FRes -> length FRes = length BRes ->
  length BRes = length MRes -> In 0%Z MRes ->
  exists v,
    relative_entropy_of_counts ARes FRes BRes MRes data1 data2 = Ok v
    /\ is_finite v = false.
Proof.
  intros HAF HFB HBM Hin. eexists. split.
  - unfold relative_entropy_of_counts.
    rewrite HAF, HFB, HBM, Nat.eqb_refl. reflexivity.
  - now apply factorized_zero_middle.
Qed.

Lemma zero_middle_count_not_finite_witness :
  exists v,
    relative_entropy_of_counts [1]%Z [1]%Z [1]%Z [0]%Z [1; 1]%Z [0; 2]%Z = Ok v
    /\ is_finite v = false.
Proof.
  apply zero_middle_count_not_finite; [reflexivity .. | left; reflexivity].
Defined.

(** C2, as stated, fails: with counts A = [1], F = [1], B = [1], M = [0]
    (the order-(k-1) array holding [1, 1] and the order-(k-2) array [0, 2])
    the computation returns minus infinity instead of failing. *)
Lemma zero_middle_count_returns_minus_infinity :
  In 0%Z [0%Z]
  /\ relative_entropy_of_counts [1]%Z [1]%Z [1]%Z [0]%Z [1; 1]%Z [0; 2]%Z = Ok NInf.
Proof.
  split; [left; reflexivity |].
  change (Ok (factorized [1]%Z [1]%Z [1]%Z [0]%Z 1 2 2) = Ok NInf). f_equal.
  rewrite factorized_cons, factorized_nil by auto.
  unfold factorized_term.
  change (1 * 1)%Z with 1%Z. change (2 ^ 2)%Z with 4%Z. change (2 * 1)%Z with 2%Z.
  rewrite (div_of_int 1 1), (div_of_int 4 2) by discriminate.
  unfold of_int, log2.
  rewrite (div_pos_by_zero 1) by lra.
  change (div (Finite 1) PInf) with (Finite 0).
  rewrite log_base_zero, (log_base_finite 2 (4 / 2)) by lra.
  cbn [add]. rewrite mul_pos_inf by (reflexivity || lra).
  reflexivity.
Qed.

End RelativeEntropyFacts.

(** ** Cumulative relative entropy *)

Module CreFacts.
Import NP NPFacts RelativeEntropy.

Lemma clip_finite (r : R) : clip (Finite 0) PInf (Finite r) = Finite (Rmax r 0).
Proof. reflexivity. Qed.

Lemma Rmax_zero_nonneg (r : R) : (0 <= Rmax r 0)%R.
Proof. apply Rmax_r. Qed.

(** Below a total [total], the running sums of non-negative terms give a
    non-increasing tail, whatever they started from. *)
Lemma cre_tail_non_increasing (total acc : R) (cs : list R) :
  Forall (fun c => 0 <= c)%R cs ->
  non_increasing
    (Finite (total + - acc)
     :: map (fun c => sub (Finite total) c) (cumsum_from (Finite acc) (map Finite cs))).
Proof.
  intros Hcs. revert acc.
  induction Hcs as [| c cs Hc Hcs IH]; intros acc; [exact I |].
  cbn [map cumsum_from add sub neg].
  split.
  - cbn [le]. lra.
  - specialize (IH (acc + c)%R). cbn [sub neg add] in IH. exact IH.
Qed.

(** A list of finite scalars is a list of reals. *)
Lemma finite_scalars (l : list float64) :
  Forall (fun v => is_finite v = true) l -> exists rs, l = map Finite rs.
Proof.
  induction 1 as [| v l Hv _ [rs ->]]; [now exists [] |].
  destruct v as [r | | |]; try discriminate. now exists (r :: rs).
Qed.

(** C7, as the code has it: for every sequence of finite per-k
    relative-entropy scalars, the series of [calculate_cre_kmer] (the scalars
    clipped below at zero, the total minus their running sums, the total in
    front) is non-increasing in k. *)
Theorem cre_non_increasing (relEntropies : list float64) :
  Forall (fun v => is_finite v = true) relEntropies ->
  non_increasing (cre_of relEntropies).
Proof.
  intros Hfinite. destruct (finite_scalars _ Hfinite) as [rs ->]. clear Hfinite.
  unfold cre_of. rewrite map_map.
  set (cs := map (fun r => Rmax r 0) rs).
  assert (Hclip : map (fun r => clip (Finite 0) PInf (Finite r)) rs
                  = map Finite cs).
  { unfold cs. rewrite map_map. reflexivity. }
  rewrite Hclip.
  assert (Hcs : Forall (fun c => 0 <= c)%R cs).
  { unfold cs. apply Forall_map, Forall_true. intros r. apply Rmax_zero_nonneg. }
  assert (Htotal : exists total, sum (map Finite cs) = Finite total).
  { clear. induction cs as [| c cs [t IH]]; [now exists 0%R |].
    exists (c + t)%R. cbn [map]. now rewrite sum_cons, IH. }
  destruct Htotal as [total ->].
  destruct Hcs as [| c cs Hc Hcs]; [exact I |].
  cbn [map cumsum sub neg add]. split.
  - cbn [le]. lra.
  - apply cre_tail_non_increasing. assumption.
Qed.

Lemma cre_non_increasing_witness :
  non_increasing (cre_of [Finite (1 / 2); Finite (- 1 / 4); Finite (1 / 8)]).
Proof.
  apply (cre_non_increasing [Finite (1 / 2); Finite (- 1 / 4); Finite (1 / 8)]).
  repeat constructor.
Defined.

(** A front count of zero under positive observed, back and middle counts
    (A = [1], F = [0], B = [1], M = [1]): the expectation is 0, the ratio
    1/0 is +inf, and so is the relative entropy. *)
Lemma zero_front_count_returns_infinity :
  relative_entropy_of_counts [1]%Z [0]%Z [1]%Z [1]%Z [0; 1]%Z [1]%Z = Ok PInf.
Proof.
  change (Ok (factorized [1]%Z [0]%Z [1]%Z [1]%Z 1 1 1) = Ok PInf). f_equal.
  rewrite RelativeEntropyFacts.factorized_cons, RelativeEntropyFacts.factorized_nil
    by auto.
  unfold factorized_term.
  change (0 * 1)%Z with 0%Z. change (1 ^ 2)%Z with 1%Z. change (1 * 1)%Z with 1%Z.
  rewrite (div_of_int 0 1), (div_of_int 1 1) by discriminate.
  replace (0 / 1)%R with 0%R by lra.
  unfold of_int, log2. rewrite (div_pos_by_zero 1) by lra.
  rewrite (log_base_finite 2 (1 / 1)) by lra.
  cbn [log_base add]. rewrite mul_pos_inf by (reflexivity || lra).
  reflexivity.
Qed.

(** C7, as stated, fails: the scalars need not be finite.  A relative
    entropy of +inf (a front count of zero) gives the series [+inf, NaN],
    because the total minus the running sum is inf - inf, and a NaN scalar
    gives [NaN, NaN]; neither series is non-increasing. *)
Lemma infinite_scalar_series_not_non_increasing :
  relative_entropy_of_counts [1]%Z [0]%Z [1]%Z [1]%Z [0; 1]%Z [1]%Z = Ok PInf
  /\ cre_of [PInf] = [PInf; NaN]
  /\ ~ non_increasing (cre_of [PInf])
  /\ cre_of [NaN] = [NaN; NaN]
  /\ ~ non_increasing (cre_of [NaN]).
Proof.
  split; [exact zero_front_count_returns_infinity |].
  split; [reflexivity |]. split; [intros [H _]; exact H |].
  split; [reflexivity |]. intros [H _]; exact H.
Qed.

(** The series for the scalars 0.5, -0.25, 0.125 (k from 3 to 6) is
    0.625, 0.125, 0.125, 0. *)
Example cre_of_example :
  cre_of [Finite (1 / 2); Finite (- 1 / 4); Finite (1 / 8)]
  = [Finite (5 / 8); Finite (1 / 8); Finite (1 / 8); Finite 0].
Proof.
  unfold cre_of. cbn [map]. rewrite !clip_finite.
  replace (Rmax (1 / 2) 0) with (1 / 2)%R by (symmetry; apply Rmax_left; lra).
  replace (Rmax (- 1 / 4) 0) with 0%R by (symmetry; apply Rmax_right; lra).
  replace (Rmax (1 / 8) 0) with (1 / 8)%R by (symmetry; apply Rmax_left; lra).
  rewrite !sum_cons. cbn. repeat f_equal; lra.
Qed.

End CreFacts.

(** ** Shannon diversity: binned against batch *)

Module ShannonFacts.
Import NP NPFacts FeatureFrequency Inputs.

Lemma mapM_app {A B : Type} (f : A -> result B) (l1 l2 : list A) :
  mapM f (l1 ++ l2) = (k1 ← mapM f l1; k2 ← mapM f l2; mret (k1 ++ k2)).
Proof.
  induction l1 as [| x l1 IH]; cbn [app mapM].
  - cbn. destruct (mapM f l2); reflexivity.
  - destruct (f x) as [y | e]; cbn; [| reflexivity].
    rewrite IH. destruct (mapM f l1); cbn; [| reflexivity].
    destruct (mapM f l2); reflexivity.
Qed.

Lemma rebuild_sparse_matrix_app (s1 s2 : list KmerSignature) (ksize : Z) :
  rebuild_sparse_matrix (s1 ++ s2) ksize
  = (m1 ← rebuild_sparse_matrix s1 ksize;
     m2 ← rebuild_sparse_matrix s2 ksize;
     mret (m1 ++ m2)).
Proof. apply mapM_app. Qed.

Lemma shannon_of_nil (ksize : Z) : shannon_of [] ksize = Finite 0.
Proof. unfold shannon_of. cbn. f_equal. ring. Qed.

(** The Shannon sum of stacked matrices is the sum of their Shannon sums. *)
Lemma shannon_of_app (m1 m2 : list csr_row) (ksize : Z) :
  shannon_of (m1 ++ m2) ksize = add (shannon_of m1 ksize) (shannon_of m2 ksize).
Proof.
  unfold shannon_of. cbv zeta.
  rewrite !map_app, sum_app, !mul_minus_one. apply neg_add.
Qed.

Lemma shannon_loop_spec (bins : list (list KmerSignature)) (ksize : Z)
    (shannon : float64) :
  shannon_loop bins ksize shannon
  = (m ← rebuild_sparse_matrix (concat bins) ksize;
     mret (add shannon (shannon_of m ksize))).
Proof.
  revert shannon. induction bins as [| storebin rest IH]; intros shannon.
  - change (Ok shannon = Ok (add shannon (shannon_of [] ksize))).
    now rewrite shannon_of_nil, add_zero_r.
  - cbn [shannon_loop concat]. rewrite rebuild_sparse_matrix_app.
    destruct (rebuild_sparse_matrix storebin ksize) as [m1 | e];
      cbn [mbind result_bind]; [| reflexivity].
    rewrite IH.
    destruct (rebuild_sparse_matrix (concat rest) ksize) as [m2 | e];
      cbn [mbind result_bind mret result_ret]; [| reflexivity].
    now rewrite shannon_of_app, add_assoc.
Qed.

(** The slices of [binning] put end to end give the list back. *)
Lemma slices_concat {A : Type} (b n : nat) (lst : list A) :
  (0 < b)%nat -> (length lst <= n * b)%nat ->
  concat (map (fun q => take b (drop (q * b) lst)) (seq 0 n)) = lst.
Proof.
  intros Hb. revert lst. induction n as [| n IH]; intros lst Hlen.
  - destruct lst; [reflexivity | simpl in Hlen; lia].
  - rewrite <- cons_seq, <- fmap_S_seq. cbn [map concat].
    change (fmap S (seq 0 n)) with (map S (seq 0 n)). rewrite map_map.
    rewrite drop_0.
    rewrite (map_ext _ (fun q => take b (drop (q * b) (drop b lst)))).
    + rewrite IH by (rewrite length_drop; lia). apply take_drop.
    + intros q. rewrite drop_drop. reflexivity.
Qed.

Lemma binning_concat {A : Type} (lst : list A) (binsize : Z) :
  (0 < binsize)%Z -> exists bins, binning lst binsize = Ok bins /\ concat bins = lst.
Proof.
  intros Hb. unfold binning.
  destruct (binsize =? 0)%Z eqn:E0; [lia |].
  destruct (binsize <? 0)%Z eqn:E1; [lia |].
  eexists. split; [reflexivity |].
  apply slices_concat; [lia |].
  set (b := Z.to_nat binsize). assert (0 < b)%nat by lia.
  pose proof (Nat.div_mod_eq (length lst + b - 1) b) as Hdiv.
  pose proof (Nat.mod_upper_bound (length lst + b - 1) b) as Hmod.
  nia.
Qed.

(** C8: for every genome collection, every k and every positive bin size,
    the binned Shannon estimator returns what the batch estimator returns on
    the same collection (over exact reals, so up to the order of the
    floating-point sums); in particular with the bin size of the source, 50. *)
Theorem binned_shannon_eq_batch
    (binsize : Z) (stores : list KmerSignature) (ksize : Z) :
  (0 < binsize)%Z ->
  lowmem_shannon_with binsize stores ksize = calculate_ofc_shannon stores ksize
  /\ lowmem_calculate_ofc_shannon stores ksize = calculate_ofc_shannon stores ksize.
Proof.
  assert (H : forall b, (0 < b)%Z ->
            lowmem_shannon_with b stores ksize = calculate_ofc_shannon stores ksize).
  { intros b Hb. unfold lowmem_shannon_with, calculate_ofc_shannon.
    destruct (binning_concat stores b Hb) as (bins & -> & Hcat).
    cbn [mbind result_bind].
    rewrite shannon_loop_spec, Hcat.
    destruct (rebuild_sparse_matrix stores ksize) as [m | e];
      cbn [mbind result_bind mret result_ret]; [| reflexivity].
    unfold of_int. now rewrite add_zero_l. }
  intros Hb. split; [now apply H |]. apply H. lia.
Qed.

Lemma binned_shannon_eq_batch_witness :
  (0 < 2)%Z
  /\ lowmem_shannon_with 2 [genome [0; 1; 2]; genome [2; 3]; genome [3]]%Z 1
     = calculate_ofc_shannon [genome [0; 1; 2]; genome [2; 3]; genome [3]]%Z 1.
Proof.
  split; [reflexivity |].
  exact (proj1 (binned_shannon_eq_batch 2 _ 1 eq_refl)).
Defined.

End ShannonFacts.

(** ** The curve selector *)

Module SelectorFacts.
Import NP NPFacts Selector Inputs.

Lemma fold_maximum_finite (rs : list R) (r : R) :
  fold_left maximum (map Finite rs) (Finite r) = Finite (fold_left Rmax rs r).
Proof. revert r. induction rs as [| a rs IH]; intros r; [reflexivity | apply IH]. Qed.

Lemma fold_minimum_finite (rs : list R) (r : R) :
  fold_left minimum (map Finite rs) (Finite r) = Finite (fold_left Rmin rs r).
Proof. revert r. induction rs as [| a rs IH]; intros r; [reflexivity | apply IH]. Qed.

Lemma array_max_finite (ys : list R) :
  ys <> [] -> array_max (map Finite ys) = Ok (Finite (rmax_list ys)).
Proof.
  destruct ys as [| r rs]; [congruence | intros _].
  cbn [map array_max rmax_list]. now rewrite fold_maximum_finite.
Qed.

Lemma array_min_finite (ys : list R) :
  ys <> [] -> array_min (map Finite ys) = Ok (Finite (rmin_list ys)).
Proof.
  destruct ys as [| r rs]; [congruence | intros _].
  cbn [map array_min rmin_list]. now rewrite fold_minimum_finite.
Qed.

Lemma ltb_finite_true (a b : R) : (a < b)%R -> ltb (Finite a) (Finite b) = true.
Proof. intros H. unfold ltb. destruct (Rlt_dec a b); [reflexivity | contradiction]. Qed.

Lemma ltb_finite_false (a b : R) : ~ (a < b)%R -> ltb (Finite a) (Finite b) = false.
Proof. intros H. unfold ltb. destruct (Rlt_dec a b); [contradiction | reflexivity]. Qed.

Section Guard.

Variable interp1d : list float64 -> list float64 -> result (float64 -> float64).

(** The range check of lines 459-462, for a finite series and a positive
    percent. *)
Lemma find_yintercept_above_cutoff (x : list float64) (ys : list R) (percent : R) :
  ys <> [] -> (0 < percent)%R ->
  (rmax_list ys / percent < rmin_list ys)%R ->
  _find_yintercept interp1d x (map Finite ys) (Finite percent)
  = Raise NotImplementedError.
Proof.
  intros Hys Hp Hlt. unfold _find_yintercept.
  rewrite array_max_finite, array_min_finite by assumption.
  cbn [mbind result_bind]. rewrite div_finite by lra.
  now rewrite ltb_finite_true.
Qed.

End Guard.

(** *** Indexing and the grid *)

Lemma argwhere_from_bounds (s : Z) (mask : list bool) (j : Z) :
  In j (argwhere_from s mask) -> (s <= j < s + Z.of_nat (length mask))%Z.
Proof.
  revert s. induction mask as [| b mask IH]; intros s; cbn [argwhere_from];
    [intros [] |].
  intros Hin. apply in_app_or in Hin. destruct Hin as [Hin | Hin].
  - destruct b; [| destruct Hin]. destruct Hin as [<- | []].
    cbn [length]. lia.
  - apply IH in Hin. cbn [length]. lia.
Qed.

Lemma argwhere_from_all_false (s : Z) (mask : list bool) :
  Forall (fun b => b = false) mask -> argwhere_from s mask = [].
Proof.
  intros H. revert s. induction H as [| b mask -> _ IH]; intros s; [reflexivity |].
  cbn [argwhere_from app]. apply IH.
Qed.

Lemma length_diff (l : list float64) : length (diff l) = (length l - 1)%nat.
Proof.
  induction l as [| a [| b t] IH]; [reflexivity | reflexivity |].
  change (diff (a :: b :: t)) with (sub b a :: diff (b :: t)).
  cbn [length] in *. lia.
Qed.

Lemma getitem_nonneg {A : Type} (l : list A) (i : Z) (v : A) :
  (0 <= i)%Z -> l !! Z.to_nat i = Some v -> getitem l i = Ok v.
Proof.
  intros Hi Hl. unfold getitem.
  destruct (0 <=? i)%Z eqn:E; [| lia]. now rewrite Hl.
Qed.

Lemma getitem_first (xs : list R) :
  xs <> [] -> getitem (map Finite xs) 0 = Ok (Finite (hd 0%R xs)).
Proof. destruct xs; [congruence | reflexivity]. Qed.

Lemma getitem_last (xs : list R) :
  xs <> [] -> getitem (map Finite xs) (-1) = Ok (Finite (List.last xs 0%R)).
Proof.
  intros Hxs. unfold getitem.
  change (0 <=? -1)%Z with false. cbv iota.
  rewrite length_map.
  destruct (Z.leb_spec (- Z.of_nat (length xs)) (-1)) as [E | E];
    [| destruct xs; [congruence | cbn [length] in E; lia]].
  replace (Z.to_nat (Z.of_nat (length xs) + -1)) with (length xs - 1)%nat by lia.
  rewrite list_lookup_fmap.
  assert (Hl : xs !! (length xs - 1)%nat = Some (List.last xs 0%R)).
  { clear E. induction xs as [| a [| b t] IH]; [congruence | reflexivity |].
    change (List.last (a :: b :: t) 0%R) with (List.last (b :: t) 0%R).
    replace (length (a :: b :: t) - 1)%nat with (S (length (b :: t) - 1))
      by (cbn [length]; lia).
    apply IH. discriminate. }
  now rewrite Hl.
Qed.

Lemma fold_Rmax_acc (rs : list R) (r0 : R) : (r0 <= fold_left Rmax rs r0)%R.
Proof.
  revert r0. induction rs as [| a rs IH]; intros r0; cbn [fold_left]; [lra |].
  apply Rle_trans with (Rmax r0 a); [apply Rmax_l | apply IH].
Qed.

Lemma fold_Rmax_ge (rs : list R) (r0 r : R) :
  In r rs -> (r <= fold_left Rmax rs r0)%R.
Proof.
  revert r0. induction rs as [| a rs IH]; intros r0; cbn [fold_left]; [intros [] |].
  intros [-> | Hin]; [| now apply IH].
  apply Rle_trans with (Rmax r0 r); [apply Rmax_r | apply fold_Rmax_acc].
Qed.

Lemma fold_Rmin_acc (rs : list R) (r0 : R) : (fold_left Rmin rs r0 <= r0)%R.
Proof.
  revert r0. induction rs as [| a rs IH]; intros r0; cbn [fold_left]; [lra |].
  apply Rle_trans with (Rmin r0 a); [apply IH | apply Rmin_l].
Qed.

Lemma fold_Rmin_le (rs : list R) (r0 r : R) :
  In r rs -> (fold_left Rmin rs r0 <= r)%R.
Proof.
  revert r0. induction rs as [| a rs IH]; intros r0; cbn [fold_left]; [intros [] |].
  intros [-> | Hin]; [| now apply IH].
  apply Rle_trans with (Rmin r0 r); [apply fold_Rmin_acc | apply Rmin_r].
Qed.

Lemma rlist_bounds (l : list R) (r : R) :
  In r l -> (rmin_list l <= r <= rmax_list l)%R.
Proof.
  destruct l as [| r0 rs]; [intros [] |]. cbn [rmin_list rmax_list].
  intros [<- | Hin].
  - split; [apply fold_Rmin_acc | apply fold_Rmax_acc].
  - split; [now apply fold_Rmin_le | now apply fold_Rmax_ge].
Qed.

Lemma hd_In (xs : list R) : xs <> [] -> In (hd 0%R xs) xs.
Proof. destruct xs; [congruence | now left]. Qed.

Lemma last_In (xs : list R) : xs <> [] -> In (List.last xs 0%R) xs.
Proof.
  induction xs as [| a [| b t] IH]; [congruence | now left |].
  intros _. right. apply IH. discriminate.
Qed.

(** Every point of [linspace(a, b, num)] lies between [a] and [b]. *)
Lemma linspace_lookup (a b : R) (num i : nat) :
  (1 < num)%nat -> (i < num)%nat ->
  exists r, linspace (Finite a) (Finite b) num !! i = Some (Finite r)
            /\ (Rmin a b <= r <= Rmax a b)%R.
Proof.
  intros Hnum Hi. unfold linspace. cbv zeta.
  destruct (decide (i = num - 1)%nat) as [-> | Hne].
  - exists b. split.
    + apply list_lookup_insert_eq. rewrite length_map, length_seq. lia.
    + split; [apply Rmin_r | apply Rmax_r].
  - rewrite list_lookup_insert_ne by congruence.
    change (map ?f ?l) with (fmap f l). rewrite list_lookup_fmap.
    rewrite lookup_seq_lt by assumption. cbn [fmap option_fmap option_map Nat.add].
    assert (Hn : (0 < IZR (Z.of_nat num - 1))%R) by (apply (IZR_lt 0); lia).
    cbn [sub neg add]. unfold of_int. rewrite div_finite by lra. cbn [mul add].
    eexists. split; [reflexivity |].
    set (n := IZR (Z.of_nat num - 1)) in *.
    set (k := IZR (Z.of_nat i)).
    assert (Hk0 : (0 <= k)%R) by (apply (IZR_le 0); lia).
    assert (Hkn : (k <= n)%R) by (apply IZR_le; lia).
    set (t := (k / n)%R).
    assert (Ht0 : (0 <= t)%R).
    { unfold t, Rdiv. apply Rmult_le_pos; [lra |].
      left. apply Rinv_0_lt_compat. lra. }
    assert (Ht1 : (t <= 1)%R).
    { unfold t. apply (Rmult_le_reg_r n); [lra |].
      unfold Rdiv. rewrite Rmult_assoc, Rinv_l by lra. lra. }
    replace (k * ((b + - a) / n) + a)%R with (a + t * (b - a))%R
      by (unfold t; field; lra).
    unfold Rmin, Rmax. destruct (Rle_dec a b); split; nra.
Qed.

Lemma scenario_y_max : rmax_list scenario_y = 100%R.
Proof.
  unfold rmax_list, scenario_y. cbn [fold_left].
  unfold Rmax; repeat (destruct (Rle_dec _ _); try lra).
Qed.

Lemma scenario_y_min : rmin_list scenario_y = 20%R.
Proof.
  unfold rmin_list, scenario_y. cbn [fold_left].
  unfold Rmin; repeat (destruct (Rle_dec _ _); try lra).
Qed.

Lemma scenario_guard (percent : R)
    (interp1d : list float64 -> list float64 -> result (float64 -> float64)) :
  (5 < percent)%R ->
  _find_yintercept interp1d (map Finite scenario_x) (map Finite scenario_y)
    (Finite percent)
  = Raise NotImplementedError.
Proof.
  intros Hp. apply find_yintercept_above_cutoff; [discriminate | lra |].
  rewrite scenario_y_max, scenario_y_min.
  apply (Rmult_lt_reg_r percent); [lra |].
  unfold Rdiv. rewrite Rmult_assoc, Rinv_l by lra. lra.
Qed.

(** C9, as the code has it: over x = [3, 4, 5, 6, 7] and
    y = [100, 80, 60, 40, 20] the selector fails with the range-exhausted
    condition both with percent = 10 (the cutoff is 10 and min(y) = 20 is
    above it) and with percent = 200 (cutoff 0.5), whatever the
    interpolant. *)
Theorem scenario_c_range_exhausted
    (interp1d : list float64 -> list float64 -> result (float64 -> float64)) :
  _find_yintercept interp1d (map Finite scenario_x) (map Finite scenario_y) (Finite 10)
  = Raise NotImplementedError
  /\ _find_yintercept interp1d (map Finite scenario_x) (map Finite scenario_y) (Finite 200)
     = Raise NotImplementedError.
Proof.
  split; apply scenario_guard; lra.
Qed.

(** C9, as stated, fails: with percent = 10 the selector returns no x at
    all, so none strictly between 6 and 7. *)
Lemma scenario_c_returns_no_crossing :
  ~ (exists r : R,
       _find_yintercept scenario_interp1d (map Finite scenario_x)
         (map Finite scenario_y) (Finite 10) = Ok (Finite r)
       /\ (6 < r < 7)%R).
Proof.
  intros (r & E & _).
  rewrite scenario_guard in E by lra. discriminate.
Qed.

(** *** The range check and the returned x *)

Lemma length_linspace (start stop : float64) (num : nat) :
  length (linspace start stop num) = num.
Proof. unfold linspace. cbv zeta. now rewrite length_insert, length_map, length_seq. Qed.

Lemma sign_changes_bounds (yn : list float64) (cutoff : float64) (i : Z) :
  In i (sign_changes yn cutoff) -> (0 <= i < Z.of_nat (length yn - 1))%Z.
Proof.
  unfold sign_changes, argwhere. intros Hin.
  apply argwhere_from_bounds in Hin.
  rewrite length_map, length_diff, length_map in Hin. lia.
Qed.

(** C3, as the code has it: for every finite series of at least two points
    and every positive percent, the selector fails with the range-exhausted
    condition when min(y) > max(y)/percent.  Otherwise, once the interpolant
    is built, it looks for the first grid point after which
    sign(interpolated y - cutoff) changes: it returns that grid point, which
    lies within [min(x), max(x)], and it fails with an index error when the
    sign never changes on the grid. *)
Theorem find_yintercept_guard_and_range
    (interp1d : list float64 -> list float64 -> result (float64 -> float64))
    (xs ys : list R) (percent : R) :
  (2 <= length xs)%nat -> (2 <= length ys)%nat -> (0 < percent)%R ->
  let x := map Finite xs in
  let y := map Finite ys in
  let cutoff := (rmax_list ys / percent)%R in
  let out := _find_yintercept interp1d x y (Finite percent) in
  ((cutoff < rmin_list ys)%R -> out = Raise NotImplementedError)
  /\ (~ (cutoff < rmin_list ys)%R ->
      forall fi, interp1d x y = Ok fi ->
        let xn := linspace (Finite (hd 0%R xs)) (Finite (List.last xs 0%R)) 500 in
        match sign_changes (map fi xn) (Finite cutoff) with
        | [] => out = Raise IndexError
        | i :: _ =>
            exists r, xn !! Z.to_nat i = Some (Finite r)
                      /\ out = Ok (Finite r)
                      /\ (rmin_list xs <= r <= rmax_list xs)%R
        end).
Proof.
  intros Hxs Hys Hp. cbv zeta.
  assert (Hxs' : xs <> []) by (destruct xs; [simpl in Hxs; lia | discriminate]).
  assert (Hys' : ys <> []) by (destruct ys; [simpl in Hys; lia | discriminate]).
  split; [now apply find_yintercept_above_cutoff |].
  intros Hge fi Hfi. unfold _find_yintercept.
  rewrite array_max_finite, array_min_finite by assumption.
  cbn [mbind result_bind]. rewrite div_finite by lra.
  rewrite ltb_finite_false by assumption.
  rewrite Hfi, getitem_first, getitem_last by assumption.
  cbn [mbind result_bind].
  set (xn := linspace (Finite (hd 0%R xs)) (Finite (List.last xs 0%R)) 500).
  destruct (sign_changes (map fi xn) (Finite (rmax_list ys / percent)))
    as [| i idx] eqn:E; [reflexivity |].
  change (getitem (i :: idx) 0) with (Ok i). cbn [mbind result_bind].
  assert (Hi : (0 <= i < 499)%Z).
  { pose proof (sign_changes_bounds (map fi xn) (Finite (rmax_list ys / percent)) i) as H.
    rewrite E, length_map in H. unfold xn in H. rewrite length_linspace in H.
    apply H. now left. }
  destruct (linspace_lookup (hd 0%R xs) (List.last xs 0%R) 500 (Z.to_nat i))
    as (r & Hr & Hlo & Hhi); [lia | lia |].
  exists r. split; [exact Hr |]. split; [now apply getitem_nonneg |].
  pose proof (rlist_bounds xs _ (hd_In xs Hxs')) as [H1 H2].
  pose proof (rlist_bounds xs _ (last_In xs Hxs')) as [H3 H4].
  unfold Rmin, Rmax in *. destruct (Rle_dec _ _); lra.
Qed.

Lemma find_yintercept_guard_and_range_witness :
  (2 <= length scenario_x)%nat /\ (2 <= length scenario_y)%nat /\ (0 < 200)%R
  /\ _find_yintercept flat_interp1d (map Finite scenario_x) (map Finite scenario_y)
       (Finite 200) = Raise NotImplementedError.
Proof.
  assert (H1 : (2 <= length scenario_x)%nat) by (cbn; lia).
  assert (H2 : (2 <= length scenario_y)%nat) by (cbn; lia).
  assert (H3 : (0 < 200)%R) by lra.
  repeat (split; [assumption |]).
  apply (proj1 (find_yintercept_guard_and_range flat_interp1d _ _ _ H1 H2 H3)).
  rewrite scenario_y_max, scenario_y_min. lra.
Defined.

Lemma diff_flat (s : float64) (n : nat) :
  Forall (fun d => d = sub s s) (diff (repeat s n)).
Proof.
  induction n as [| [| n] IH]; [constructor | constructor |].
  change (diff (repeat s (S (S n)))) with (sub s s :: diff (repeat s (S n))).
  constructor; [reflexivity | exact IH].
Qed.

(** A grid on which the interpolated curve is flat has no sign change. *)
Lemma sign_changes_flat (c cutoff : float64) (xn : list float64) :
  neb (sub (sign (sub c cutoff)) (sign (sub c cutoff))) (Finite 0) = false ->
  sign_changes (map (fun _ => c) xn) cutoff = [].
Proof.
  intros Hs. unfold sign_changes, argwhere. rewrite map_map.
  apply argwhere_from_all_false.
  replace (map (fun _ => sign (sub c cutoff)) xn)
    with (repeat (sign (sub c cutoff)) (length xn))
    by (induction xn; cbn [repeat length map]; congruence).
  apply Forall_map. eapply Forall_impl; [apply diff_flat |].
  intros d ->. exact Hs.
Qed.

(** C3, as stated, fails: for the series x = [3, 4, 5, 6], y = [0, 0, 0, 0]
    and percent = 10 the cutoff is 0 and min(y) is not above it, yet the
    selector returns no x: the interpolated curve is flat, the sign never
    changes, and taking the first crossing fails with an index error. *)
Lemma flat_series_index_error :
  (2 <= length [3; 4; 5; 6]%R)%nat
  /\ (0 < 10)%R
  /\ ~ (rmax_list [0; 0; 0; 0]%R / 10 < rmin_list [0; 0; 0; 0]%R)%R
  /\ _find_yintercept flat_interp1d (map Finite [3; 4; 5; 6]%R)
       (map Finite [0; 0; 0; 0]%R) (Finite 10) = Raise IndexError.
Proof.
  assert (Hmax : rmax_list [0; 0; 0; 0]%R = 0%R).
  { unfold rmax_list. cbn [fold_left]. now rewrite !(Rmax_left 0 0) by lra. }
  assert (Hmin : rmin_list [0; 0; 0; 0]%R = 0%R).
  { unfold rmin_list. cbn [fold_left]. now rewrite !(Rmin_left 0 0) by lra. }
  split; [cbn; lia |]. split; [lra |].
  split; [rewrite Hmax, Hmin; lra |].
  unfold _find_yintercept.
  rewrite array_max_finite, array_min_finite by discriminate.
  cbn [mbind result_bind]. rewrite div_finite by lra.
  rewrite ltb_finite_false by (rewrite Hmax, Hmin; lra).
  unfold flat_interp1d. cbn [mbind result_bind].
  rewrite getitem_first, getitem_last by discriminate.
  cbn [mbind result_bind].
  rewrite sign_changes_flat; [reflexivity |].
  rewrite Hmax. cbn [sub neg add]. unfold sign.
  destruct (Rlt_dec 0 (0 + - (0 / 10))); [lra |].
  destruct (Rlt_dec (0 + - (0 / 10)) 0); [lra |].
  cbn [sub neg add]. unfold neb.
  destruct (Req_dec_T (0 + - 0) 0); [reflexivity | lra].
Qed.

End SelectorFacts.

(** ** The percentage of observed features *)

Module OfcFacts.
Import NP NPFacts FeatureFrequency Inputs.

Ltac decide_reals :=
  repeat match goal with
    | |- context [Rlt_dec ?a ?b] => destruct (Rlt_dec a b); [try lra | try lra]
    | |- context [Req_dec_T ?a ?b] => destruct (Req_dec_T a b); [try lra | try lra]
    end.

Lemma mapM_raise_first {A B : Type} (f : A -> result B) (a : A) (l : list A)
    (e : pyerror) :
  f a = Raise e -> mapM f (a :: l) = Raise e.
Proof. intros H. cbn [mapM]. now rewrite H. Qed.

Lemma choose_kmer_nil (start_k : Z) : choose_kmer [] start_k = Raise IndexError.
Proof. reflexivity. Qed.

(** Whatever it is given, [calculate_ofc_kmer] raises: on an empty k-range
    there is no index to take, and otherwise the first turn of the loop fails,
    at the latest when it reaches the unbound name. *)
Lemma calculate_ofc_kmer_raises (stores : list KmerSignature) (start_k stop_k : Z) :
  exists e, calculate_ofc_kmer stores start_k stop_k = Raise e.
Proof.
  unfold calculate_ofc_kmer, calculate_ofc_kmer_with, range.
  destruct (Z.to_nat (stop_k + 1 - start_k)) as [| n].
  - exists IndexError. reflexivity.
  - cbn [seq map].
    destruct (rebuild_sparse_matrix stores (start_k + Z.of_nat 0)) as [m | e] eqn:E.
    + exists NameError. erewrite mapM_raise_first; [reflexivity |].
      rewrite E. reflexivity.
    + exists e. erewrite mapM_raise_first; [reflexivity |].
      rewrite E. reflexivity.
Qed.

(** C5, at two genomes indexed at every k and the k-range [3, 4]:
    [calculate_ofc_kmer] returns neither percentages nor a recommended k; it
    stops with a name error on [_calculate_ocf], whose definition is
    commented out in the source.  No input makes it return. *)
Theorem calculate_ofc_kmer_name_error :
  calculate_ofc_kmer [genome [0; 1; 2]; genome [2; 3]]%Z 3 4 = Raise NameError
  /\ (forall stores start_k stop_k,
        exists e, calculate_ofc_kmer stores start_k stop_k = Raise e).
Proof.
  split; [vm_compute; reflexivity |]. intros. apply calculate_ofc_kmer_raises.
Qed.

(** With the commented-out helper bound again, the index chosen from the
    percentages 90, 70, 90 is that of the drop below 80 (0, so the first k),
    not that of the last change of sign (1): only decreasing signs count. *)
Example choose_kmer_counts_drops_only :
  choose_kmer [Finite 90; Finite 70; Finite 90] 3 = Ok 3%Z.
Proof.
  unfold choose_kmer, of_int. cbn [map sub neg add].
  assert (S1 : Selector.sign (Finite (90 + - (80))) = Finite 1)
    by (unfold Selector.sign; decide_reals; reflexivity).
  assert (S2 : Selector.sign (Finite (70 + - (80))) = Finite (-1))
    by (unfold Selector.sign; decide_reals; reflexivity).
  rewrite S1, S2.
  cbn [Selector.diff sub neg add map].
  assert (L1 : Selector.ltb (Finite (-1 + - (1))) (Finite 0) = true)
    by (unfold Selector.ltb; decide_reals; reflexivity).
  assert (L2 : Selector.ltb (Finite (1 + - (-1))) (Finite 0) = false)
    by (unfold Selector.ltb; decide_reals; reflexivity).
  rewrite L1, L2. reflexivity.
Qed.

End OfcFacts.

(** ** The slices of [binning] *)

Module BinningFacts.
Import FeatureFrequency.

Lemma slice_length {A : Type} (lst : list A) (b q : nat) :
  length (take b (drop (q * b) lst)) = Nat.min b (length lst - q * b).
Proof. now rewrite length_take, length_drop. Qed.

(** For a positive bin size [binning] cuts the list into
    ceil(len / binsize) slices, none empty and none longer than the bin
    size, which put end to end give the list back in order. *)
Theorem binning_slices {A : Type} (lst : list A) (binsize : Z) :
  (0 < binsize)%Z ->
  exists bins,
    binning lst binsize = Ok bins
    /\ concat bins = lst
    /\ Forall (fun bin => (0 < length bin <= Z.to_nat binsize)%nat) bins
    /\ length bins = ((length lst + Z.to_nat binsize - 1) / Z.to_nat binsize)%nat.
Proof.
  intros Hb.
  destruct (ShannonFacts.binning_concat lst binsize Hb) as (bins & Hbins & Hcat).
  exists bins. split; [exact Hbins |]. split; [exact Hcat |].
  unfold binning in Hbins.
  destruct (binsize =? 0)%Z eqn:E0; [lia |].
  destruct (binsize <? 0)%Z eqn:E1; [lia |].
  injection Hbins as <-.
  set (b := Z.to_nat binsize). assert (Hb' : (0 < b)%nat) by lia.
  set (n := ((length lst + b - 1) / b)%nat).
  assert (Hn : (b * n <= length lst + b - 1)%nat) by (apply Nat.Div0.mul_div_le).
  split; [| now rewrite length_map, length_seq].
  apply Forall_map, Forall_forall. intros q Hq.
  apply list_elem_of_In, in_seq in Hq.
  rewrite slice_length.
  assert (q * b < length lst)%nat by nia.
  lia.
Qed.

Lemma binning_slices_witness :
  exists bins,
    binning [1; 2; 3; 4; 5; 6; 7]%Z 3 = Ok bins
    /\ concat bins = [1; 2; 3; 4; 5; 6; 7]%Z
    /\ Forall (fun bin => (0 < length bin <= Z.to_nat 3)%nat) bins
    /\ length bins = ((length [1; 2; 3; 4; 5; 6; 7]%Z + Z.to_nat 3 - 1) / Z.to_nat 3)%nat.
Proof. apply (binning_slices [1; 2; 3; 4; 5; 6; 7]%Z 3). reflexivity. Defined.

(** The edges of [binning]: a zero bin size is refused by [range], and a
    negative one yields no slice at all. *)
Lemma binning_edges {A : Type} (lst : list A) (binsize : Z) :
  (binsize = 0%Z -> binning lst binsize = Raise ValueError)
  /\ ((binsize < 0)%Z -> binning lst binsize = Ok []).
Proof.
  unfold binning. split.
  - intros ->. reflexivity.
  - intros Hneg. destruct (binsize =? 0)%Z eqn:E0; [lia |].
    destruct (binsize <? 0)%Z eqn:E1; [reflexivity | lia].
Qed.

End BinningFacts.

(** ** A collection of one genome *)

Module SingleGenomeFacts.
Import NP NPFacts CommonFeature.

Lemma div_zero_by_zero : div (of_int 0) (of_int 0) = NaN.
Proof.
  unfold div, of_int. destruct (Req_dec_T 0 0) as [_ | N]; [| lra].
  destruct (Rlt_dec 0 0); [lra | reflexivity].
Qed.

(** With a single file, N - 1 is zero and both estimators divide 0 by 0: the
    streaming one returns [NaN] without reading the file at all, the batch
    one returns [NaN] when the file is indexed at [ksize] and fails with the
    store's lookup error when it is not. *)
Theorem single_genome_average_is_nan (store : KmerSignature) (ksize : Z) :
  lowmem_calculate_average_common_feature [store] ksize = Ok [NaN]
  /\ (forall row, stored store ksize = Some row ->
        calculate_average_common_feature [store] ksize = Ok [NaN])
  /\ (stored store ksize = None ->
        calculate_average_common_feature [store] ksize = Raise KeyError).
Proof.
  split; [| split].
  - change (Ok [div (of_int 0) (of_int 0)] = Ok [NaN]). now rewrite div_zero_by_zero.
  - intros row Hrow. unfold calculate_average_common_feature, rebuild_sparse_matrix.
    cbn [mapM]. unfold get_sparse_array. rewrite Hrow.
    change (Ok [div (of_int 0) (of_int 0)] = Ok [NaN]). now rewrite div_zero_by_zero.
  - intros Hnone. unfold calculate_average_common_feature, rebuild_sparse_matrix.
    cbn [mapM]. unfold get_sparse_array. rewrite Hnone. reflexivity.
Qed.

(** An empty collection: the streaming estimator returns the empty array. *)
Lemma lowmem_no_genome (ksize : Z) :
  lowmem_calculate_average_common_feature [] ksize = Ok [].
Proof. reflexivity. Qed.

End SingleGenomeFacts.

(** ** The value of the Shannon estimators *)

Module ShannonValueFacts.
Import NP NPFacts FeatureFrequency.

Lemma sum_nan (l : list float64) : In NaN l -> sum l = NaN.
Proof.
  induction l as [| x l IH]; [intros [] |].
  intros [-> | Hin]; rewrite sum_cons; [reflexivity |].
  rewrite IH by assumption. now destruct x.
Qed.

Lemma allPossibleFeatures_pos (ksize : Z) :
  exists d, allPossibleFeatures ksize = Finite d /\ (0 < d)%R.
Proof.
  unfold allPossibleFeatures. destruct (Z.leb_spec 0 ksize) as [Hk | Hk].
  - eexists. split; [reflexivity |]. apply (IZR_lt 0). apply Z.pow_pos_nonneg; lia.
  - eexists. split; [reflexivity |]. apply Rinv_0_lt_compat, (IZR_lt 0).
    apply Z.pow_pos_nonneg; lia.
Qed.

(** The term of a genome with no stored key: 0 * log 0, which is NaN. *)
Lemma empty_genome_term (d : R) :
  (0 < d)%R ->
  mul (div (of_int 0) (Finite d)) (log (div (of_int 0) (Finite d))) = NaN.
Proof.
  intros Hd. unfold of_int. rewrite div_finite by lra.
  replace (0 / d)%R with 0%R by (unfold Rdiv; ring).
  unfold log. rewrite log_base_zero. cbn [mul]. unfold scale_inf.
  destruct (Rlt_dec 0 0); [lra |]. destruct (Rlt_dec 0 0); [lra | reflexivity].
Qed.

Lemma shannon_of_empty_row (spmatrix : list csr_row) (ksize : Z) :
  Exists (fun row => entries row = []) spmatrix -> shannon_of spmatrix ksize = NaN.
Proof.
  intros Hex. unfold shannon_of. cbv zeta.
  destruct (allPossibleFeatures_pos ksize) as (d & -> & Hd).
  rewrite sum_nan; [reflexivity |].
  apply Exists_exists in Hex. destruct Hex as (row & Hin & Hrow).
  rewrite !map_map. apply in_map_iff. exists row. split; [| now apply list_elem_of_In].
  unfold getnnz. rewrite Hrow. apply empty_genome_term. exact Hd.
Qed.

(** When a genome of the collection has no stored k-mer at [ksize], both
    Shannon estimators return NaN (0 * log 0), whatever the other genomes
    hold. *)
Theorem shannon_nan_on_empty_genome
    (stores : list KmerSignature) (ksize : Z) (rows : list csr_row) :
  Forall2 (fun store row => stored store ksize = Some row) stores rows ->
  Exists (fun row => entries row = []) rows ->
  calculate_ofc_shannon stores ksize = Ok NaN
  /\ lowmem_calculate_ofc_shannon stores ksize = Ok NaN.
Proof.
  intros Hrows Hex.
  pose proof (CommonFeatureFacts.rebuild_sparse_matrix_rows _ _ _ Hrows) as Hre.
  assert (Hbatch : calculate_ofc_shannon stores ksize = Ok NaN).
  { unfold calculate_ofc_shannon. rewrite Hre. cbn [mbind result_bind].
    unfold mret, result_ret. now rewrite shannon_of_empty_row. }
  split; [exact Hbatch |].
  unfold lowmem_calculate_ofc_shannon, lowmem_shannon_with.
  destruct (ShannonFacts.binning_concat stores 50) as (bins & -> & Hcat); [lia |].
  cbn [mbind result_bind]. rewrite ShannonFacts.shannon_loop_spec, Hcat, Hre.
  cbn [mbind result_bind]. unfold mret, result_ret.
  now rewrite shannon_of_empty_row.
Qed.

Lemma shannon_nan_on_empty_genome_witness :
  calculate_ofc_shannon [Inputs.genome [0; 1]%Z; Inputs.genome []] 1 = Ok NaN
  /\ lowmem_calculate_ofc_shannon [Inputs.genome [0; 1]%Z; Inputs.genome []] 1 = Ok NaN.
Proof.
  apply (shannon_nan_on_empty_genome [Inputs.genome [0; 1]%Z; Inputs.genome []] 1
           [CsrRow 4 [(0, 1); (1, 1)]%Z; CsrRow 4 []]).
  - repeat constructor.
  - right. left. reflexivity.
Defined.

(** The term of a genome whose number of stored keys lies between 1 and the
    number of possible keys: finite, and at most zero. *)
Lemma genome_term_nonpos (n : Z) (d : R) :
  (0 < n)%Z -> (IZR n <= d)%R ->
  exists t, mul (div (of_int n) (Finite d)) (log (div (of_int n) (Finite d))) = Finite t
            /\ (t <= 0)%R.
Proof.
  intros Hn Hd. assert (Hn' : (0 < IZR n)%R) by now apply (IZR_lt 0).
  unfold of_int. rewrite div_finite by lra.
  assert (Hp : (0 < IZR n / d)%R) by (apply Rdiv_lt_0_compat; lra).
  assert (Hp1 : (IZR n / d <= 1)%R).
  { apply (Rmult_le_reg_r d); [lra |]. unfold Rdiv.
    rewrite Rmult_assoc, Rinv_l by lra. lra. }
  unfold log. rewrite log_base_finite by assumption. cbn [mul].
  eexists. split; [reflexivity |].
  rewrite ln_exp. unfold Rdiv at 2. rewrite Rinv_1, Rmult_1_r.
  assert (Hln : (ln (IZR n / d) <= 0)%R).
  { rewrite <- ln_1. destruct Hp1 as [Hlt | ->]; [| lra].
    left. apply ln_increasing; assumption. }
  nra.
Qed.

Lemma sum_nonpos (l : list float64) :
  Forall (fun v => exists t, v = Finite t /\ (t <= 0)%R) l ->
  exists s, sum l = Finite s /\ (s <= 0)%R.
Proof.
  induction 1 as [| v l (t & -> & Ht) _ (s & IH & Hs)].
  - exists 0%R. split; [reflexivity | lra].
  - exists (t + s)%R. rewrite sum_cons, IH. split; [reflexivity | lra].
Qed.

(** When every genome has at least one stored key and at most 4^k of them,
    the Shannon value is a finite, non-negative number. *)
Theorem shannon_finite_nonnegative
    (stores : list KmerSignature) (ksize : Z) (rows : list csr_row) :
  (0 <= ksize)%Z ->
  Forall2 (fun store row => stored store ksize = Some row) stores rows ->
  Forall (fun row => (1 <= getnnz row <= 4 ^ ksize)%Z) rows ->
  exists h, calculate_ofc_shannon stores ksize = Ok (Finite h) /\ (0 <= h)%R.
Proof.
  intros Hk Hrows Hnnz.
  unfold calculate_ofc_shannon.
  rewrite (CommonFeatureFacts.rebuild_sparse_matrix_rows _ _ _ Hrows).
  cbn [mbind result_bind]. unfold mret, result_ret, shannon_of. cbv zeta.
  unfold allPossibleFeatures. destruct (Z.leb_spec 0 ksize) as [_ | ?]; [| lia].
  destruct (sum_nonpos
    (map (fun p => mul p (log p))
       (map (fun n => div (of_int n) (of_int (4 ^ ksize))) (map getnnz rows))))
    as (s & -> & Hs).
  - rewrite !map_map. apply Forall_map. eapply Forall_impl; [exact Hnnz |].
    intros row [Hlo Hhi]. cbn beta. apply genome_term_nonpos; [lia |].
    now apply IZR_le.
  - exists (s * -1)%R. split; [reflexivity | lra].
Qed.

Lemma shannon_finite_nonnegative_witness :
  exists h,
    calculate_ofc_shannon [Inputs.genome [0; 1; 2]%Z; Inputs.genome [2; 3]%Z] 1
    = Ok (Finite h) /\ (0 <= h)%R.
Proof.
  apply (shannon_finite_nonnegative
           [Inputs.genome [0; 1; 2]%Z; Inputs.genome [2; 3]%Z] 1
           [CsrRow 4 [(0, 1); (1, 1); (2, 1)]%Z; CsrRow 4 [(2, 1); (3, 1)]%Z]).
  - lia.
  - repeat constructor.
  - repeat (apply Forall_cons_2; [unfold getnnz; cbn [entries length]; lia |]).
    apply Forall_nil_2.
Defined.

End ShannonValueFacts.

(** ** The shape of the CRE series *)

Module CreSeriesFacts.
Import NP NPFacts RelativeEntropy Selector Inputs.

Lemma sum_finite (cs : list R) : sum (map Finite cs) = Finite (total cs).
Proof.
  induction cs as [| c cs IH]; [reflexivity |].
  cbn [map total fold_right]. now rewrite sum_cons, IH.
Qed.

Lemma total_nonneg (cs : list R) : Forall (fun c => 0 <= c)%R cs -> (0 <= total cs)%R.
Proof. induction 1; cbn [total fold_right]; [lra |]. fold (total l). lra. Qed.

Lemma last_map_shift (f : R -> R) (l : list R) (d : R) :
  List.last (map f l) (f d) = f (List.last l d).
Proof. induction l as [| a [| b t] IH]; [reflexivity | reflexivity | exact IH]. Qed.

Lemma last_default (l : list R) (d d' : R) :
  l <> [] -> List.last l d = List.last l d'.
Proof.
  induction l as [| a [| b t] IH]; [congruence | reflexivity |].
  intros _. apply IH. discriminate.
Qed.

(** The running sums of non-negative terms, started from [acc]: they stay
    between [acc] and [acc] plus the total, where they end. *)
Lemma cumsum_from_finite (acc : R) (cs : list R) :
  Forall (fun c => 0 <= c)%R cs ->
  exists ps,
    cumsum_from (Finite acc) (map Finite cs) = map Finite ps
    /\ length ps = length cs
    /\ Forall (fun p => acc <= p <= acc + total cs)%R ps
    /\ List.last ps acc = (acc + total cs)%R.
Proof.
  intros Hcs. revert acc. induction Hcs as [| c cs Hc Hcs IH]; intros acc.
  - exists []. repeat split; [constructor | cbn; lra].
  - destruct (IH (acc + c)%R) as (ps & Hps & Hlen & Hbound & Hlast).
    pose proof (total_nonneg cs Hcs) as Ht.
    exists ((acc + c)%R :: ps). cbn [map cumsum_from add total fold_right].
    fold (total cs). rewrite Hps. repeat split.
    + cbn [length]. now rewrite Hlen.
    + constructor; [lra |]. eapply Forall_impl; [exact Hbound |].
      cbn beta. intros p [H1 H2]. lra.
    + destruct ps as [| p ps'].
      * cbn in Hlast |- *. lra.
      * change (List.last ((acc + c)%R :: p :: ps') acc) with (List.last (p :: ps') acc).
        rewrite <- Rplus_assoc, <- Hlast. now apply last_default.
Qed.

Lemma cre_series_values (relEntropies : list R) :
  exists cs,
    cre_of (map Finite relEntropies) = map Finite cs
    /\ length cs = S (length relEntropies)
    /\ hd 0%R cs = total (map (fun r => Rmax r 0) relEntropies)
    /\ Forall (fun c => 0 <= c <= total (map (fun r => Rmax r 0) relEntropies))%R cs
    /\ List.last cs 0%R = 0%R.
Proof.
  unfold cre_of. rewrite map_map.
  set (cl := map (fun r => Rmax r 0) relEntropies).
  assert (Hclip : map (fun r => clip (Finite 0) PInf (Finite r)) relEntropies
                  = map Finite cl).
  { unfold cl. rewrite map_map. reflexivity. }
  rewrite Hclip, sum_finite.
  assert (Hlen : length cl = length relEntropies) by (unfold cl; apply length_map).
  assert (Hcl : Forall (fun c => 0 <= c)%R cl).
  { unfold cl. apply Forall_map, Forall_true. intros r. apply Rmax_r. }
  clearbody cl. clear Hclip.
  pose proof (total_nonneg cl Hcl) as HT.
  destruct Hcl as [| c cl Hc Hcl].
  - exists [0%R]. cbn in Hlen |- *.
    split; [reflexivity |]. split; [lia |]. split; [reflexivity |].
    split; [| reflexivity]. constructor; [lra | constructor].
  - destruct (cumsum_from_finite c cl Hcl) as (ps & Hps & Hlenps & Hbound & Hlast).
    exists (total (c :: cl) :: map (fun p => total (c :: cl) + - p)%R (c :: ps)).
    cbn [map cumsum]. rewrite Hps. cbn [sub neg add].
    split; [| split; [| split; [| split]]].
    + rewrite !map_map. reflexivity.
    + cbn [length] in *. rewrite length_map. lia.
    + reflexivity.
    + cbn [total fold_right] in *. fold (total cl) in *.
      pose proof (total_nonneg cl Hcl) as Ht.
      constructor; [cbn beta; lra |]. constructor; [cbn beta; lra |].
      apply Forall_map.
      eapply Forall_impl; [exact Hbound |]. cbn beta. intros p [H1 H2]. lra.
    + assert (Hl : List.last (c :: ps) (total (c :: cl)) = total (c :: cl)).
      { destruct ps as [| p ps'].
        - unfold total in *. cbn [List.last fold_right] in Hlast |- *. lra.
        - change (List.last (c :: p :: ps') ?d) with (List.last (p :: ps') d).
          cbn [total fold_right]. fold (total cl). rewrite <- Hlast.
          now apply last_default. }
      set (T := total (c :: cl)) in *.
      set (f := fun p => (T + - p)%R).
      change (List.last (map f (c :: ps)) 0%R = 0%R).
      rewrite (last_default _ 0%R (f T)) by discriminate.
      rewrite last_map_shift, Hl. unfold f. ring.
Qed.

Lemma lookup_last (l : list R) (d : R) :
  l <> [] -> l !! (length l - 1)%nat = Some (List.last l d).
Proof.
  induction l as [| a [| b t] IH]; [congruence | reflexivity |].
  intros _. change (List.last (a :: b :: t) d) with (List.last (b :: t) d).
  replace (length (a :: b :: t) - 1)%nat with (S (length (b :: t) - 1))
    by (cbn [length]; lia).
  apply IH. discriminate.
Qed.

(** For every list of real relative entropies, the series of
    [calculate_cre_kmer] has one more element than the list, starts at the
    sum of their positive parts, ends at 0, and is made of finite numbers
    between 0 and that sum. *)
Theorem cre_series_shape (relEntropies : list R) :
  let cre := cre_of (map Finite relEntropies) in
  let top := total (map (fun r => Rmax r 0) relEntropies) in
  length cre = S (length relEntropies)
  /\ cre !! 0%nat = Some (Finite top)
  /\ cre !! length relEntropies = Some (Finite 0)
  /\ Forall (fun v => exists c, v = Finite c /\ (0 <= c <= top)%R) cre.
Proof.
  cbv zeta.
  destruct (cre_series_values relEntropies) as (cs & -> & Hlen & Hhd & Hall & Hlast).
  assert (Hne : cs <> []) by (destruct cs; [discriminate | discriminate]).
  split; [now rewrite length_map |]. split; [| split].
  - destruct cs as [| c cs']; [congruence |]. cbn in Hhd |- *. now rewrite Hhd.
  - change (map Finite cs) with (fmap Finite cs). rewrite list_lookup_fmap.
    pose proof (lookup_last cs 0%R Hne) as Hl. rewrite Hlast in Hl.
    replace (length relEntropies) with (length cs - 1)%nat by lia.
    now rewrite Hl.
  - apply Forall_map. eapply Forall_impl; [exact Hall |]. cbn beta. eauto.
Qed.

Lemma getitem_error {A : Type} (l : list A) (i : Z) (e : pyerror) :
  getitem l i = Raise e -> e = IndexError.
Proof.
  unfold getitem. destruct (0 <=? i)%Z.
  - destruct (l !! Z.to_nat i); cbn; congruence.
  - destruct (- Z.of_nat (length l) <=? i)%Z; [| congruence].
    destruct (l !! Z.to_nat (Z.of_nat (length l) + i)); cbn; congruence.
Qed.

(** On the series of [calculate_cre_kmer] the range check of the selector
    never fires: the series ends at 0, so its minimum is not above a tenth of
    its maximum, and once the interpolant is built the call cannot end in the
    not-yet-supported error. *)
Theorem cre_range_check_passes (relEntropies : list R) :
  let cre := cre_of (map Finite relEntropies) in
  exists ymax ymin,
    array_max cre = Ok ymax
    /\ array_min cre = Ok ymin
    /\ ltb (div ymax (of_int 10)) ymin = false
    /\ forall interp1d x fi,
         interp1d x cre = Ok fi ->
         _find_yintercept interp1d x cre (of_int 10) <> Raise NotImplementedError.
Proof.
  cbv zeta.
  destruct (cre_series_values relEntropies) as (cs & -> & Hlen & Hhd & Hall & Hlast).
  assert (Hne : cs <> []) by (destruct cs; [discriminate | discriminate]).
  pose proof (SelectorFacts.rlist_bounds cs _ (SelectorFacts.last_In cs Hne)) as [Hmin Hmax].
  rewrite Hlast in Hmin, Hmax.
  assert (Hguard : ltb (div (Finite (rmax_list cs)) (of_int 10)) (Finite (rmin_list cs))
                   = false).
  { unfold of_int. rewrite div_finite by lra.
    apply SelectorFacts.ltb_finite_false. lra. }
  exists (Finite (rmax_list cs)), (Finite (rmin_list cs)).
  rewrite SelectorFacts.array_max_finite, SelectorFacts.array_min_finite by assumption.
  split; [reflexivity |]. split; [reflexivity |]. split; [exact Hguard |].
  intros interp1d x fi Hfi. unfold _find_yintercept.
  rewrite SelectorFacts.array_max_finite, SelectorFacts.array_min_finite by assumption.
  cbn [mbind result_bind]. rewrite Hguard, Hfi. cbn [mbind result_bind].
  destruct (getitem x 0) as [x_first | e] eqn:E1; cbn [mbind result_bind];
    [| apply getitem_error in E1; congruence].
  destruct (getitem x (-1)) as [x_last | e] eqn:E2; cbn [mbind result_bind];
    [| apply getitem_error in E2; congruence].
  destruct (getitem (sign_changes _ _) 0) as [i | e] eqn:E3; cbn [mbind result_bind];
    [| apply getitem_error in E3; congruence].
  destruct (getitem (linspace x_first x_last 500) i) as [v | e] eqn:E4;
    [congruence | apply getitem_error in E4; congruence].
Qed.

End CreSeriesFacts.

(** ** The first crossing *)

Module CrossingFacts.
Import NP NPFacts Selector.

Lemma argwhere_from_head (s : Z) (mask : list bool) (i : Z) (rest : list Z) :
  argwhere_from s mask = i :: rest ->
  exists n, i = (s + Z.of_nat n)%Z
            /\ mask !! n = Some true
            /\ forall m, (m < n)%nat -> mask !! m = Some false.
Proof.
  revert s. induction mask as [| b mask IH]; intros s; cbn [argwhere_from];
    [discriminate |].
  destruct b; cbn [app].
  - intros [= <- _]. exists 0%nat. split; [lia |]. split; [reflexivity |]. lia.
  - intros H. destruct (IH _ H) as (n & -> & Hn & Hbefore).
    exists (S n). split; [lia |]. split; [exact Hn |].
    intros [| m] Hm; [reflexivity |]. apply Hbefore. lia.
Qed.

Lemma diff_lookup (l : list float64) (j : nat) (d : float64) :
  diff l !! j = Some d ->
  exists a b, l !! j = Some a /\ l !! S j = Some b /\ d = sub b a.
Proof.
  revert j. induction l as [| a [| b t] IH]; intros j; [discriminate | discriminate |].
  change (diff (a :: b :: t)) with (sub b a :: diff (b :: t)).
  destruct j as [| j].
  - intros [= <-]. exists a, b. repeat split.
  - intros H. apply IH in H. exact H.
Qed.

Lemma diff_lookup_2 (l : list float64) (j : nat) (a b : float64) :
  l !! j = Some a -> l !! S j = Some b -> diff l !! j = Some (sub b a).
Proof.
  revert j. induction l as [| x [| y t] IH]; intros j; [discriminate | |].
  - intros _ H. destruct j; discriminate.
  - change (diff (x :: y :: t)) with (sub y x :: diff (y :: t)).
    destruct j as [| j].
    + intros [= <-] [= <-]. reflexivity.
    + intros Ha Hb. apply IH; assumption.
Qed.

(** Line 468-469: the position taken from [sign_changes] is the first one,
    scanning the grid from its low end, at which the sign of y - cutoff at
    one grid point differs from the sign at the next; at every earlier
    position the two signs agree. *)
Theorem first_sign_change (yn : list float64) (cutoff : float64) (i : Z) (rest : list Z) :
  sign_changes yn cutoff = i :: rest ->
  exists n a b,
    i = Z.of_nat n
    /\ yn !! n = Some a /\ yn !! S n = Some b
    /\ neb (sub (sign (sub b cutoff)) (sign (sub a cutoff))) (Finite 0) = true
    /\ forall m a' b',
         (m < n)%nat -> yn !! m = Some a' -> yn !! S m = Some b' ->
         neb (sub (sign (sub b' cutoff)) (sign (sub a' cutoff))) (Finite 0) = false.
Proof.
  unfold sign_changes, argwhere. intros H.
  destruct (argwhere_from_head _ _ _ _ H) as (n & -> & Hn & Hbefore).
  change (map ?f ?l) with (fmap f l) in Hn, Hbefore.
  rewrite list_lookup_fmap in Hn.
  destruct (diff _ !! n) as [d |] eqn:Ed; [| discriminate].
  injection Hn as Hn.
  destruct (diff_lookup _ _ _ Ed) as (sa & sb & Ha & Hb & ->).
  change (map ?f yn) with (fmap f yn) in Ha, Hb.
  rewrite list_lookup_fmap in Ha, Hb.
  destruct (yn !! n) as [a |] eqn:Ea; [| discriminate].
  destruct (yn !! S n) as [b |] eqn:Eb; [| discriminate].
  injection Ha as <-. injection Hb as <-.
  exists n, a, b. split; [lia |]. split; [exact Ea |]. split; [exact Eb |].
  split; [exact Hn |].
  intros m a' b' Hm Ha' Hb'. specialize (Hbefore m Hm).
  rewrite list_lookup_fmap in Hbefore.
  rewrite (diff_lookup_2 (map (fun v => sign (sub v cutoff)) yn) m
             (sign (sub a' cutoff)) (sign (sub b' cutoff))) in Hbefore.
  - now injection Hbefore.
  - change (map ?f yn) with (fmap f yn). now rewrite list_lookup_fmap, Ha'.
  - change (map ?f yn) with (fmap f yn). now rewrite list_lookup_fmap, Hb'.
Qed.

Lemma sign_pos (r : R) : (0 < r)%R -> sign (Finite r) = Finite 1.
Proof. intros H. unfold sign. destruct (Rlt_dec 0 r); [reflexivity | contradiction]. Qed.

Lemma sign_neg (r : R) : (r < 0)%R -> sign (Finite r) = Finite (-1).
Proof.
  intros H. unfold sign. destruct (Rlt_dec 0 r); [lra |].
  destruct (Rlt_dec r 0); [reflexivity | contradiction].
Qed.

Lemma neb_finite_false (r : R) : r = 0%R -> neb (Finite r) (Finite 0) = false.
Proof. intros ->. unfold neb. destruct (Req_dec_T 0 0); [reflexivity | lra]. Qed.

Lemma neb_finite_true (r : R) : r <> 0%R -> neb (Finite r) (Finite 0) = true.
Proof. intros H. unfold neb. destruct (Req_dec_T r 0); [contradiction | reflexivity]. Qed.

Lemma sign_changes_example :
  sign_changes [Finite 30; Finite 20; Finite 5; Finite 2; Finite 12] (Finite 10)
  = [1; 3]%Z.
Proof.
  unfold sign_changes. cbn [map sub neg add].
  rewrite (sign_pos (30 + - (10))), (sign_pos (20 + - (10))),
    (sign_pos (12 + - (10))), (sign_neg (5 + - (10))), (sign_neg (2 + - (10))) by lra.
  cbn [diff sub neg add map].
  rewrite (neb_finite_false (1 + - (1))), (neb_finite_false (-1 + - (-1))),
    (neb_finite_true (-1 + - (1))), (neb_finite_true (1 + - (-1))) by lra.
  reflexivity.
Qed.

Lemma first_sign_change_witness :
  exists n a b,
    1%Z = Z.of_nat n
    /\ [Finite 30; Finite 20; Finite 5; Finite 2; Finite 12] !! n = Some a
    /\ [Finite 30; Finite 20; Finite 5; Finite 2; Finite 12] !! S n = Some b
    /\ neb (sub (sign (sub b (Finite 10))) (sign (sub a (Finite 10)))) (Finite 0) = true
    /\ forall m a' b',
         (m < n)%nat ->
         [Finite 30; Finite 20; Finite 5; Finite 2; Finite 12] !! m = Some a' ->
         [Finite 30; Finite 20; Finite 5; Finite 2; Finite 12] !! S m = Some b' ->
         neb (sub (sign (sub b' (Finite 10))) (sign (sub a' (Finite 10)))) (Finite 0)
         = false.
Proof.
  exact (first_sign_change _ _ 1%Z [3%Z] sign_changes_example).
Defined.

End CrossingFacts.

(** ** Loops that may fail *)

Module LoopFacts.

Lemma mapM_lookup {A B : Type} (f : A -> result B) (l : list A) (r : list B) :
  mapM f l = Ok r ->
  length r = length l
  /\ forall j x, l !! j = Some x -> exists y, r !! j = Some y /\ f x = Ok y.
Proof.
  revert r. induction l as [| a l IH]; intros r.
  - intros [= <-]. split; [reflexivity | intros j x H; discriminate].
  - cbn [mapM]. destruct (f a) as [b | e] eqn:Ea; cbn [mbind result_bind];
      [| discriminate].
    destruct (mapM f l) as [r' | e] eqn:El; cbn [mbind result_bind]; [| discriminate].
    intros [= <-]. destruct (IH r' eq_refl) as [Hlen Hl].
    split; [cbn [length]; lia |].
    intros [| j] x; cbn [lookup list_lookup].
    + intros [= <-]. eauto.
    + apply Hl.
Qed.

Lemma mapM_of_lookup {A B : Type} (f : A -> result B) (l : list A) (r : list B) :
  length r = length l ->
  (forall j x, l !! j = Some x -> exists y, r !! j = Some y /\ f x = Ok y) ->
  mapM f l = Ok r.
Proof.
  revert r. induction l as [| a l IH]; intros [| b r] Hlen H; try discriminate;
    [reflexivity |].
  cbn [mapM]. destruct (H 0%nat a eq_refl) as (y & [= <-] & ->).
  cbn [mbind result_bind]. rewrite (IH r); [reflexivity | cbn [length] in Hlen; lia |].
  intros j x Hj. apply (H (S j) x Hj).
Qed.

(** A loop whose every turn succeeds. *)
Lemma mapM_total {A B : Type} (f : A -> result B) (l : list A) :
  (forall x, In x l -> exists y, f x = Ok y) -> exists r, mapM f l = Ok r.
Proof.
  induction l as [| a l IH]; intros H; [exists []; reflexivity |].
  destruct (H a (or_introl eq_refl)) as [b Hb].
  destruct IH as [r Hr]; [intros x Hx; apply H; now right |].
  exists (b :: r). cbn [mapM]. rewrite Hb. cbn [mbind result_bind]. now rewrite Hr.
Qed.

(** A loop whose turns can only fail with [e], and one of which does. *)
Lemma mapM_raise {A B : Type} (f : A -> result B) (l : list A) (e : pyerror) (x : A) :
  In x l -> f x = Raise e ->
  (forall x', In x' l -> (exists y, f x' = Ok y) \/ f x' = Raise e) ->
  mapM f l = Raise e.
Proof.
  induction l as [| a l IH]; intros Hin Hx Hall; [destruct Hin |].
  cbn [mapM]. destruct (Hall a (or_introl eq_refl)) as [[b Hb] | Ha].
  - rewrite Hb. cbn [mbind result_bind].
    destruct Hin as [-> | Hin]; [congruence |].
    rewrite IH; [reflexivity | assumption | assumption |].
    intros x' Hx'. apply Hall. now right.
  - now rewrite Ha.
Qed.

Lemma mapM_ext_in {A B : Type} (f g : A -> result B) (l : list A) :
  (forall x, In x l -> f x = g x) -> mapM f l = mapM g l.
Proof.
  induction l as [| a l IH]; intros H; [reflexivity |].
  cbn [mapM]. rewrite (H a) by now left.
  rewrite IH by (intros x Hx; apply H; now right). reflexivity.
Qed.

Lemma In_range (lo hi k : Z) : In k (range lo hi) <-> (lo <= k < hi)%Z.
Proof.
  unfold range. rewrite in_map_iff. split.
  - intros (i & <- & Hi). apply in_seq in Hi. lia.
  - intros H. exists (Z.to_nat (k - lo)). split; [lia |]. apply in_seq. lia.
Qed.

Lemma lookup_range (lo hi : Z) (j : nat) :
  (j < Z.to_nat (hi - lo))%nat -> range lo hi !! j = Some (lo + Z.of_nat j)%Z.
Proof.
  intros Hj. unfold range. change (map ?f ?l) with (fmap f l).
  rewrite list_lookup_fmap, lookup_seq_lt by exact Hj. reflexivity.
Qed.

Lemma length_range (lo hi : Z) : length (range lo hi) = Z.to_nat (hi - lo).
Proof. unfold range. now rewrite length_map, length_seq. Qed.

Lemma range_first (lo hi : Z) :
  (lo < hi)%Z -> exists rest, range lo hi = lo :: rest.
Proof.
  intros Hlt. unfold range.
  destruct (Z.to_nat (hi - lo)) as [| n] eqn:E; [lia |].
  cbn [seq map]. rewrite Z.add_0_r. eauto.
Qed.

End LoopFacts.

(** ** The join of the three arrays *)

Module JoinFacts.
Import NP RelativeEntropy Join LoopFacts.

Lemma inverse_permutations_spec (n : nat) (idx inv_idx : list Z) :
  inverse_permutations n idx inv_idx = true ->
  length idx = n /\ length inv_idx = n
  /\ Forall (fun q => (0 <= q < Z.of_nat n)%Z) idx
  /\ forall i, (i < n)%nat ->
       exists p, inv_idx !! i = Some p /\ (0 <= p)%Z
                 /\ idx !! Z.to_nat p = Some (Z.of_nat i).
Proof.
  unfold inverse_permutations. rewrite !andb_true_iff, !Nat.eqb_eq, !forallb_forall.
  intros [[[Hlen1 Hlen2] Hidx] Hinv].
  split; [exact Hlen1 |]. split; [exact Hlen2 |]. split.
  - apply Forall_forall. intros q Hq. apply list_elem_of_In in Hq.
    specialize (Hidx q Hq). lia.
  - intros i Hi. specialize (Hinv i). rewrite in_seq in Hinv.
    specialize (Hinv ltac:(lia)).
    destruct (inv_idx !! i) as [p |]; [| discriminate].
    apply andb_true_iff in Hinv. destruct Hinv as [Hp Hd].
    apply bool_decide_eq_true in Hd. exists p. split; [reflexivity |]. split; [lia | exact Hd].
Qed.

Section Search.

Variable searchsorted : list Z -> list Z -> list Z.
Variable argsort : list Z -> list Z.

(** The search of one key in a sorted array. *)
Variable search1 : list Z -> Z -> Z.

(** [su.searchsorted] looks up each key of an ascending array of keys. *)
Hypothesis searchsorted_ascending :
  forall a q, ascending q = true -> searchsorted a q = map (search1 a) q.

(** Sorting the keys, searching, and undoing the sort gives the position of
    each key, in the order of the keys. *)
Lemma sort_search_unsort (a h : list Z) :
  argsort_contract argsort h = true ->
  exists hs,
    take_indices h (argsort h) = Ok hs
    /\ take_indices (searchsorted a hs) (argsort (argsort h)) = Ok (map (search1 a) h).
Proof using searchsorted_ascending.
  unfold argsort_contract. rewrite andb_true_iff. intros [Hperm Hsorted].
  destruct (take_indices h (argsort h)) as [hs | e] eqn:Ehs; [| discriminate].
  exists hs. split; [reflexivity |].
  rewrite searchsorted_ascending by exact Hsorted.
  apply inverse_permutations_spec in Hperm.
  destruct Hperm as (Hlen1 & Hlen2 & Hidx & Hinv).
  destruct (mapM_lookup _ _ _ Ehs) as [Hlenhs Hhs].
  unfold take_indices. apply mapM_of_lookup; [rewrite length_map; lia |].
  intros i p Hp.
  assert (Hi : (i < length h)%nat).
  { apply lookup_lt_Some in Hp. lia. }
  destruct (Hinv i Hi) as (p' & Hp' & Hpos & Hback).
  rewrite Hp in Hp'. injection Hp' as <-.
  destruct (Hhs _ _ Hback) as (y & Hy & Hget).
  destruct (lookup_lt_is_Some_2 h i Hi) as [hi Hhi].
  assert (y = hi) as ->.
  { unfold getitem in Hget. destruct (Z.leb_spec 0 (Z.of_nat i)); [| lia].
    rewrite Nat2Z.id, Hhi in Hget. now injection Hget. }
  exists (search1 a hi). split.
  - change (map ?f ?l) with (fmap f l). now rewrite list_lookup_fmap, Hhi.
  - unfold getitem. destruct (Z.leb_spec 0 p); [| lia].
    change (map ?f ?l) with (fmap f l). now rewrite list_lookup_fmap, Hy.
Qed.

Variable trimFront : list Z -> Z -> list Z.
Variable trimBack : list Z -> list Z.
Variable int_log4 : Z -> Z.

(** Lines 150-176: under numpy's contract for [argsort] at the two arrays of
    keys that are sorted, the front and the middle counts are read at the
    position of each key's own front and middle key: sorting the keys before
    the search and undoing the sort afterwards changes nothing. *)
Theorem join_reads_each_key_position (array0 array1 array2 : csr_row) :
  let ksize := (int_log4 (ncols array1) + 1)%Z in
  let fHash := trimFront (indices array0) ksize in
  let bHash := trimBack (indices array0) in
  let mHash := trimBack fHash in
  argsort_contract argsort fHash = true ->
  argsort_contract argsort mHash = true ->
  _calculate_re_vectorize trimFront trimBack searchsorted argsort int_log4
    array0 array1 array2
  = (FRes ← take_indices (data array1) (map (search1 (indices array1)) fHash);
     BRes ← take_indices (data array1) (searchsorted (indices array1) bHash);
     MRes ← take_indices (data array2) (map (search1 (indices array2)) mHash);
     relative_entropy_of_counts (data array0) FRes BRes MRes
       (data array1) (data array2)).
Proof using searchsorted_ascending.
  cbv zeta. intros Hf Hm. unfold _calculate_re_vectorize. cbv zeta.
  destruct (sort_search_unsort (indices array1) _ Hf) as (fs & -> & Hfs).
  cbn [mbind result_bind]. rewrite Hfs. cbn [mbind result_bind].
  destruct (take_indices (data array1) (map _ _)) as [FRes | e];
    cbn [mbind result_bind]; [| reflexivity].
  destruct (take_indices (data array1) (searchsorted _ _)) as [BRes | e];
    cbn [mbind result_bind]; [| reflexivity].
  destruct (sort_search_unsort (indices array2) _ Hm) as (ms & -> & Hms).
  cbn [mbind result_bind]. rewrite Hms. reflexivity.
Qed.

End Search.

Lemma join_reads_each_key_position_witness :
  _calculate_re_vectorize JoinExample.trimFront JoinExample.trimBack
    JoinExample.searchsorted JoinExample.argsort JoinExample.int_log4
    JoinExample.array0 JoinExample.array1 JoinExample.array2
  = (FRes ← take_indices (data JoinExample.array1)
              (map (JoinExample.search1 (indices JoinExample.array1))
                 (JoinExample.trimFront (indices JoinExample.array0)
                    (JoinExample.int_log4 (ncols JoinExample.array1) + 1)));
     BRes ← take_indices (data JoinExample.array1)
              (JoinExample.searchsorted (indices JoinExample.array1)
                 (JoinExample.trimBack (indices JoinExample.array0)));
     MRes ← take_indices (data JoinExample.array2)
              (map (JoinExample.search1 (indices JoinExample.array2))
                 (JoinExample.trimBack
                    (JoinExample.trimFront (indices JoinExample.array0)
                       (JoinExample.int_log4 (ncols JoinExample.array1) + 1))));
     relative_entropy_of_counts (data JoinExample.array0) FRes BRes MRes
       (data JoinExample.array1) (data JoinExample.array2)).
Proof.
  apply (join_reads_each_key_position JoinExample.searchsorted JoinExample.argsort
           JoinExample.search1).
  - intros a q _. reflexivity.
  - vm_compute. reflexivity.
  - vm_compute. reflexivity.
Defined.

End JoinFacts.

(** ** Counts that follow the expectation *)

Module ExpectedCountsFacts.
Import NP NPFacts RelativeEntropy.

Lemma sumZ_pos (l : list Z) :
  l <> [] -> Forall (fun a => 0 < a)%Z l -> (0 < sumZ l)%Z.
Proof.
  intros Hne H. induction H as [| a l Ha Hl IH]; [congruence |].
  rewrite CommonFeatureFacts.sumZ_cons.
  destruct l as [| b l]; [unfold sumZ; cbn [fold_left]; lia |].
  specialize (IH ltac:(discriminate)). lia.
Qed.

(** One k-mer whose observed frequency is the expected one contributes
    [a / norm0 * log2 1], which is 0. *)
Lemma factorized_term_expected (a f b m norm0 norm1 norm2 : Z) :
  (0 < a)%Z -> (0 < f)%Z -> (0 < b)%Z -> (0 < m)%Z ->
  (0 < norm0)%Z -> (0 < norm1)%Z -> (0 < norm2)%Z ->
  (a * m * norm1 ^ 2 = f * b * (norm2 * norm0))%Z ->
  factorized_term a f b m norm0 norm1 norm2 = Finite 0.
Proof.
  intros Ha Hf Hb Hm H0 H1 H2 Heq.
  rewrite RelativeEntropyFacts.factorized_term_value by assumption.
  f_equal.
  apply (f_equal IZR) in Heq. rewrite Z.pow_2_r, !mult_IZR in Heq.
  assert (Ra : (0 < IZR a)%R) by now apply (IZR_lt 0).
  assert (Rf : (0 < IZR f)%R) by now apply (IZR_lt 0).
  assert (Rb : (0 < IZR b)%R) by now apply (IZR_lt 0).
  assert (Rm : (0 < IZR m)%R) by now apply (IZR_lt 0).
  assert (R0 : (0 < IZR norm0)%R) by now apply (IZR_lt 0).
  assert (R1 : (0 < IZR norm1)%R) by now apply (IZR_lt 0).
  assert (R2 : (0 < IZR norm2)%R) by now apply (IZR_lt 0).
  rewrite <- Rdiv_plus_distr, <- ln_mult.
  - replace (IZR a / (IZR f * IZR b / IZR m)
             * (IZR norm1 * IZR norm1 / (IZR norm2 * IZR norm0)))%R with 1%R.
    + rewrite ln_1. unfold Rdiv. ring.
    + symmetry. apply (Rmult_eq_reg_r (IZR f * IZR b * (IZR norm2 * IZR norm0))%R).
      * rewrite Rmult_1_l.
        transitivity (IZR a * IZR m * (IZR norm1 * IZR norm1))%R;
          [field; repeat split; lra | exact Heq].
      * apply Rgt_not_eq. repeat apply Rmult_lt_0_compat; assumption.
  - apply Rdiv_lt_0_compat; [assumption |].
    apply Rdiv_lt_0_compat; [now apply Rmult_lt_0_compat | assumption].
  - apply Rdiv_lt_0_compat; now apply Rmult_lt_0_compat.
Qed.

Lemma factorized_expected (ts : list (Z * Z * Z * Z)) (norm0 norm1 norm2 : Z) :
  (0 < norm0)%Z -> (0 < norm1)%Z -> (0 < norm2)%Z ->
  Forall (fun '(a, f, b, m) =>
            (0 < a /\ 0 < f /\ 0 < b /\ 0 < m
             /\ a * m * norm1 ^ 2 = f * b * (norm2 * norm0))%Z) ts ->
  factorized (map (fun t => t.1.1.1) ts) (map (fun t => t.1.1.2) ts)
    (map (fun t => t.1.2) ts) (map (fun t => t.2) ts) norm0 norm1 norm2
  = Finite 0.
Proof.
  intros H0 H1 H2. induction 1 as [| [[[a f] b] m] ts (Ha & Hf & Hb & Hm & Heq) _ IH].
  - apply RelativeEntropyFacts.factorized_nil. now left.
  - cbn [map fst snd]. rewrite RelativeEntropyFacts.factorized_cons, IH.
    rewrite factorized_term_expected by assumption.
    cbn [add]. f_equal. lra.
Qed.

(** When every k-mer is observed exactly as often as its front, back and
    middle counts let expect, that is a/norm0 = (f/norm1)(b/norm1)/(m/norm2)
    with all counts positive, the relative entropy is exactly 0 (over exact
    reals). *)
Theorem relative_entropy_zero_when_expected
    (ts : list (Z * Z * Z * Z)) (data1 data2 : list Z) :
  let ARes := map (fun t => t.1.1.1) ts in
  let FRes := map (fun t => t.1.1.2) ts in
  let BRes := map (fun t => t.1.2) ts in
  let MRes := map (fun t => t.2) ts in
  (0 < sumZ data1)%Z -> (0 < sumZ data2)%Z ->
  Forall (fun '(a, f, b, m) =>
            (0 < a /\ 0 < f /\ 0 < b /\ 0 < m
             /\ a * m * sumZ data1 ^ 2 = f * b * (sumZ data2 * sumZ ARes))%Z) ts ->
  relative_entropy_of_counts ARes FRes BRes MRes data1 data2 = Ok (Finite 0).
Proof.
  cbv zeta. intros H1 H2 Hts. unfold relative_entropy_of_counts.
  rewrite !length_map, Nat.eqb_refl. cbn [py_assert mbind result_bind].
  unfold mret, result_ret. f_equal.
  destruct ts as [| t ts'] eqn:Ets.
  - apply RelativeEntropyFacts.factorized_nil. now left.
  - rewrite <- Ets in *. apply factorized_expected; try assumption.
    apply sumZ_pos; [rewrite Ets; discriminate |].
    apply Forall_map. eapply Forall_impl; [exact Hts |].
    intros [[[a f] b] m]. cbn [fst snd]. tauto.
Qed.

(** The arrays of a run of one base: 3 occurrences of the k-mer, 4 of the
    (k-1)-mer, 5 of the (k-2)-mer. *)
Lemma relative_entropy_zero_when_expected_witness :
  relative_entropy_of_counts [3]%Z [4]%Z [4]%Z [5]%Z [4]%Z [5]%Z = Ok (Finite 0).
Proof.
  apply (relative_entropy_zero_when_expected [(3, 4, 4, 5)]%Z [4]%Z [5]%Z).
  - reflexivity.
  - reflexivity.
  - constructor; [| constructor]. vm_compute. repeat split; reflexivity.
Defined.

End ExpectedCountsFacts.

(** ** Bounds of the average common features *)

Module AverageBoundsFacts.
Import NP NPFacts CommonFeature Inputs.

Lemma shared_keys_bounds (r1 r2 : csr_row) :
  NoDup (indices r2) -> (0 <= shared_keys r1 r2 <= getnnz r2)%Z.
Proof.
  intros Hnd. unfold shared_keys, getnnz. cbv zeta. split; [lia |].
  apply inj_le.
  transitivity (size (list_to_set (indices r2) : gset Z)).
  - apply subseteq_size. set_solver.
  - rewrite size_list_to_set by assumption. unfold indices. now rewrite length_fmap.
Qed.

Lemma sumZ_bounds (l : list Z) (K : Z) :
  Forall (fun v => 0 <= v <= K)%Z l -> (0 <= sumZ l <= Z.of_nat (length l) * K)%Z.
Proof.
  induction 1 as [| v l Hv _ IH]; [unfold sumZ; cbn; lia |].
  rewrite CommonFeatureFacts.sumZ_cons. cbn [length]. rewrite Nat2Z.inj_succ. nia.
Qed.

Lemma size_list_to_set_le (l : list Z) :
  (size (list_to_set l : gset Z) <= length l)%nat.
Proof.
  induction l as [| x l IH]; [now rewrite list_to_set_nil, size_empty |].
  rewrite list_to_set_cons, size_union_alt, size_singleton. cbn [length].
  pose proof (subseteq_size (list_to_set l ∖ {[x]} : gset Z) (list_to_set l)
                ltac:(set_solver)).
  lia.
Qed.

(** The pairwise count never exceeds what either file stores. *)
Theorem pair_count_bounds (store1 store2 : KmerSignature) (ksize : Z)
    (mi mj : csr_row) :
  stored store1 ksize = Some mi -> stored store2 ksize = Some mj ->
  exists n,
    pair_calculate_average_common_feature store1 store2 ksize = Ok n
    /\ (0 <= n <= Z.min (getnnz mi) (getnnz mj))%Z.
Proof.
  intros Hi Hj. unfold pair_calculate_average_common_feature, get_sparse_array.
  rewrite Hi, Hj. cbn [from_option mbind result_bind].
  eexists. split; [reflexivity |].
  unfold shared_keys, getnnz. cbv zeta.
  pose proof (size_list_to_set_le (indices mi)) as Hli.
  pose proof (size_list_to_set_le (indices mj)) as Hlj.
  unfold indices in Hli, Hlj. rewrite length_fmap in Hli, Hlj.
  pose proof (subseteq_size
    ((list_to_set (indices mi) : gset Z) ∩ list_to_set (indices mj))
    (list_to_set (indices mi)) ltac:(set_solver)) as H1.
  pose proof (subseteq_size
    ((list_to_set (indices mi) : gset Z) ∩ list_to_set (indices mj))
    (list_to_set (indices mj)) ltac:(set_solver)) as H2.
  unfold indices in *. lia.
Qed.

Lemma pair_count_bounds_witness :
  exists n,
    pair_calculate_average_common_feature (genome [0; 1; 2]%Z) (genome [2; 3]%Z) 1
    = Ok n
    /\ (0 <= n <= Z.min (getnnz (CsrRow 4 [(0, 1); (1, 1); (2, 1)]%Z))
                        (getnnz (CsrRow 4 [(2, 1); (3, 1)]%Z)))%Z.
Proof.
  apply (pair_count_bounds (genome [0; 1; 2]%Z) (genome [2; 3]%Z) 1); reflexivity.
Defined.

(** A row of per-genome counts with the genome's own entry set to zero. *)
Lemma sumZ_others_bounds (l : list Z) (i : nat) (K : Z) :
  Forall (fun v => 0 <= v <= K)%Z l -> (i < length l)%nat ->
  (0 <= sumZ (<[i := 0%Z]> l) <= (Z.of_nat (length l) - 1) * K)%Z.
Proof.
  intros H. revert i. induction H as [| v l Hv Hl IH]; intros i Hi;
    [cbn [length] in Hi; lia |].
  destruct i as [| i].
  - change (<[0%nat := 0%Z]> (v :: l)) with (0%Z :: l).
    rewrite CommonFeatureFacts.sumZ_cons.
    pose proof (sumZ_bounds l K Hl). cbn [length]. rewrite Nat2Z.inj_succ. nia.
  - change (<[S i := 0%Z]> (v :: l)) with (v :: <[i := 0%Z]> l).
    rewrite CommonFeatureFacts.sumZ_cons.
    cbn [length] in Hi |- *. specialize (IH i ltac:(lia)).
    rewrite Nat2Z.inj_succ. nia.
Qed.

(** Row [i] of the batch loop (lines 226-229), for rows that store no key
    twice. *)
Lemma batch_row_value (rows : list csr_row) (i : nat) (ri : csr_row) :
  Forall (fun row => NoDup (indices row)) rows ->
  rows !! i = Some ri ->
  sumZ (<[i := 0%Z]> (dot_transpose (map ones rows) (ones ri)))
  = sumZ (<[i := 0%Z]> (map (fun rj => shared_keys rj ri) rows)).
Proof.
  intros Hnodup Hri. do 2 f_equal.
  unfold dot_transpose. rewrite map_map. apply map_ext_in.
  rewrite Forall_forall in Hnodup.
  assert (Hi : NoDup (indices ri)).
  { apply Hnodup. eapply list_elem_of_lookup_2. eassumption. }
  intros rj Hrj. apply list_elem_of_In, Hnodup in Hrj.
  rewrite CommonFeatureFacts.row_dot_ones.
  rewrite (map_ext _ (fun c => if decide (c ∈ indices ri) then 1%Z else 0%Z))
    by (intros c; now apply CommonFeatureFacts.count_in_nodup).
  now apply CommonFeatureFacts.count_shared_nodup.
Qed.

(** For at least two genomes, indexed at [ksize] and storing no key twice,
    every entry of the batch estimator is a finite number between 0 and the
    number of k-mers of the genome it stands for. *)
Theorem average_common_feature_bounds
    (stores : list KmerSignature) (ksize : Z) (rows : list csr_row) :
  (2 <= length stores)%nat ->
  Forall2 (fun store row => stored store ksize = Some row) stores rows ->
  Forall (fun row => NoDup (indices row)) rows ->
  exists vals,
    calculate_average_common_feature stores ksize = Ok (map Finite vals)
    /\ Forall2 (fun v row => (0 <= v <= IZR (getnnz row))%R) vals rows.
Proof.
  intros Hlen Hrows Hnodup.
  assert (Hn : length rows = length stores) by (symmetry; eapply Forall2_length; eassumption).
  set (n := length rows) in *.
  set (count := fun i =>
         match rows !! i with
         | Some ri => sumZ (<[i := 0%Z]> (map (fun rj => shared_keys rj ri) rows))
         | None => 0%Z
         end).
  exists (map (fun i => (IZR (count i) / IZR (Z.of_nat n - 1))%R) (seq 0 n)).
  split.
  - unfold calculate_average_common_feature.
    rewrite (CommonFeatureFacts.rebuild_sparse_matrix_rows _ _ _ Hrows).
    cbn [mbind result_bind]. fold n.
    erewrite CommonFeatureFacts.mapM_ok_map with (g := count).
    + cbn [mbind result_bind]. unfold mret, result_ret, divide_by_norm.
      rewrite !map_map. f_equal. apply map_ext. intros i.
      apply div_of_int. lia.
    + intros i Hi. apply in_seq in Hi.
      destruct (lookup_lt_is_Some_2 rows i) as [ri Hri]; [fold n; lia |].
      unfold count. rewrite Hri.
      change (map ones rows) with (fmap ones rows) at 1.
      rewrite list_lookup_fmap, Hri. cbn [fmap option_fmap option_map from_option
        mbind result_bind]. unfold mret, result_ret. f_equal.
      now apply batch_row_value.
  - apply Forall2_same_length_lookup_2; [now rewrite length_map, length_seq |].
    intros i v row Hv Hrow.
    change (map ?f ?l) with (fmap f l) in Hv. rewrite list_lookup_fmap in Hv.
    assert (Hi : (i < n)%nat) by (apply lookup_lt_Some in Hrow; exact Hrow).
    rewrite lookup_seq_lt in Hv by exact Hi.
    cbn [fmap option_fmap option_map Nat.add] in Hv. injection Hv as <-.
    unfold count. rewrite Hrow.
    assert (Hrow_nodup : NoDup (indices row)).
    { rewrite Forall_forall in Hnodup. apply Hnodup.
      eapply list_elem_of_lookup_2. eassumption. }
    pose proof (sumZ_others_bounds (map (fun rj => shared_keys rj row) rows) i
                  (getnnz row)) as Hb.
    rewrite length_map in Hb. fold n in Hb.
    destruct Hb as [Hlo Hhi].
    { apply Forall_map, Forall_true. intros rj. now apply shared_keys_bounds. }
    { exact Hi. }
    set (S := sumZ _) in *.
    assert (Hd : (0 < IZR (Z.of_nat n - 1))%R) by (apply (IZR_lt 0); lia).
    apply IZR_le in Hlo, Hhi. rewrite mult_IZR in Hhi.
    split.
    + apply Rmult_le_reg_r with (IZR (Z.of_nat n - 1)); [exact Hd |].
      unfold Rdiv. rewrite Rmult_assoc, Rinv_l by lra. lra.
    + apply Rmult_le_reg_r with (IZR (Z.of_nat n - 1)); [exact Hd |].
      unfold Rdiv. rewrite Rmult_assoc, Rinv_l by lra. lra.
Qed.

Lemma average_common_feature_bounds_witness :
  exists vals,
    calculate_average_common_feature [genome [0; 1; 2]; genome [2; 3]]%Z 1
    = Ok (map Finite vals)
    /\ Forall2 (fun v row => (0 <= v <= IZR (getnnz row))%R) vals
         [CsrRow 4 [(0, 1); (1, 1); (2, 1)]; CsrRow 4 [(2, 1); (3, 1)]]%Z.
Proof.
  apply (average_common_feature_bounds [genome [0; 1; 2]; genome [2; 3]]%Z 1
           [CsrRow 4 [(0, 1); (1, 1); (2, 1)]; CsrRow 4 [(2, 1); (3, 1)]]%Z).
  - cbn. lia.
  - repeat constructor.
  - repeat constructor; cbn; set_solver.
Defined.

End AverageBoundsFacts.

(** ** When the selector returns *)

Module ReturnFacts.
Import NP NPFacts Selector Inputs.

Lemma sign_cases (v : float64) :
  sign v = Finite 1 \/ sign v = Finite (-1) \/ sign v = Finite 0 \/ sign v = NaN.
Proof.
  destruct v as [r | | |]; cbn [sign]; auto.
  destruct (Rlt_dec 0 r); [auto |]. destruct (Rlt_dec r 0); auto.
Qed.

(** Two signs whose difference is zero are the same sign. *)
Lemma equal_signs (v w : float64) :
  neb (sub (sign w) (sign v)) (Finite 0) = false -> sign w = sign v.
Proof.
  destruct (sign_cases v) as [-> | [-> | [-> | ->]]];
    destruct (sign_cases w) as [-> | [-> | [-> | ->]]];
    cbn [sub neg add neb]; try discriminate; try reflexivity;
    destruct (Req_dec_T _ _) as [E | E]; try discriminate; intros _; exfalso; lra.
Qed.

Lemma argwhere_from_nil (s : Z) (b : bool) (mask : list bool) :
  argwhere_from s (b :: mask) = [] -> b = false /\ argwhere_from (s + 1) mask = [].
Proof.
  cbn [argwhere_from]. destruct b; cbn [app]; [discriminate | auto].
Qed.

(** A series without sign change carries one sign. *)
Lemma no_change_one_sign (cutoff y0 : float64) (yn : list float64) (s : Z) :
  argwhere_from s
    (map (fun d => neb d (Finite 0))
       (diff (map (fun v => sign (sub v cutoff)) (y0 :: yn)))) = [] ->
  Forall (fun v => sign (sub v cutoff) = sign (sub y0 cutoff)) yn.
Proof.
  revert y0 s. induction yn as [| y1 yn IH]; intros y0 s H; [constructor |].
  change (map ?f (y0 :: y1 :: yn)) with (f y0 :: map f (y1 :: yn)) in H.
  change (map (fun v => sign (sub v cutoff)) (y1 :: yn))
    with (sign (sub y1 cutoff) :: map (fun v => sign (sub v cutoff)) yn) in H.
  change (diff (?a :: ?b :: ?t)) with (sub b a :: diff (b :: t)) in H.
  cbn [map] in H. apply argwhere_from_nil in H. destruct H as [H1 H2].
  apply equal_signs in H1.
  constructor; [exact H1 |].
  specialize (IH y1 (s + 1)%Z H2).
  eapply Forall_impl; [exact IH |]. cbn beta. intros v ->. exact H1.
Qed.

Lemma linspace_first (a b : R) :
  linspace (Finite a) (Finite b) 500 !! 0%nat = Some (Finite a).
Proof.
  unfold linspace. cbv zeta.
  rewrite list_lookup_insert_ne by discriminate.
  change (map ?f ?l) with (fmap f l). rewrite list_lookup_fmap.
  rewrite lookup_seq_lt by lia. cbn [fmap option_fmap option_map Nat.add].
  cbn [sub neg add]. unfold of_int. rewrite div_finite by (apply not_0_IZR; lia).
  cbn [mul add]. do 2 f_equal. change (IZR (Z.of_nat 0)) with 0%R. ring.
Qed.

Lemma linspace_last (a b : R) :
  linspace (Finite a) (Finite b) 500 !! 499%nat = Some (Finite b).
Proof.
  unfold linspace. cbv zeta.
  apply list_lookup_insert_eq. rewrite length_map, length_seq. lia.
Qed.

(** When the interpolated curve is on one side of the cutoff at [x[0]] and
    on another at [x[-1]] (the signs of y - cutoff differ), the selector
    finds a crossing: it returns a point of the grid, within
    [min(x), max(x)], instead of failing. *)
Theorem find_yintercept_returns
    (interp1d : list float64 -> list float64 -> result (float64 -> float64))
    (xs ys : list R) (percent : R) (fi : float64 -> float64) :
  xs <> [] -> ys <> [] -> (0 < percent)%R ->
  let cutoff := (rmax_list ys / percent)%R in
  ~ (cutoff < rmin_list ys)%R ->
  interp1d (map Finite xs) (map Finite ys) = Ok fi ->
  sign (sub (fi (Finite (hd 0%R xs))) (Finite cutoff))
  <> sign (sub (fi (Finite (List.last xs 0%R))) (Finite cutoff)) ->
  exists r,
    _find_yintercept interp1d (map Finite xs) (map Finite ys) (Finite percent)
    = Ok (Finite r)
    /\ (rmin_list xs <= r <= rmax_list xs)%R.
Proof.
  intros Hxs Hys Hp. cbv zeta. intros Hge Hfi Hsigns. unfold _find_yintercept.
  rewrite SelectorFacts.array_max_finite, SelectorFacts.array_min_finite by assumption.
  cbn [mbind result_bind]. rewrite div_finite by lra.
  rewrite SelectorFacts.ltb_finite_false by assumption.
  rewrite Hfi, SelectorFacts.getitem_first, SelectorFacts.getitem_last by assumption.
  cbn [mbind result_bind].
  set (xn := linspace (Finite (hd 0%R xs)) (Finite (List.last xs 0%R)) 500).
  set (cutoff := (rmax_list ys / percent)%R) in *.
  destruct (sign_changes (map fi xn) (Finite cutoff)) as [| i idx] eqn:E.
  - exfalso. apply Hsigns.
    assert (H0 : xn !! 0%nat = Some (Finite (hd 0%R xs))) by apply linspace_first.
    assert (H1 : xn !! 499%nat = Some (Finite (List.last xs 0%R))) by apply linspace_last.
    destruct xn as [| x0 xn']; [discriminate |].
    injection H0 as ->.
    unfold sign_changes, argwhere in E.
    apply no_change_one_sign in E.
    rewrite Forall_forall in E. symmetry. apply E.
    apply list_elem_of_fmap. exists (Finite (List.last xs 0%R)). split; [reflexivity |].
    eapply (list_elem_of_lookup_2 _ 498). exact H1.
  - change (getitem (i :: idx) 0) with (Ok i). cbn [mbind result_bind].
    assert (Hi : (0 <= i < 499)%Z).
    { pose proof (SelectorFacts.sign_changes_bounds (map fi xn) (Finite cutoff) i) as H.
      rewrite E, length_map in H. unfold xn in H.
      rewrite SelectorFacts.length_linspace in H. apply H. now left. }
    destruct (SelectorFacts.linspace_lookup (hd 0%R xs) (List.last xs 0%R) 500
                (Z.to_nat i)) as (r & Hr & Hlo & Hhi); [lia | lia |].
    exists r. split; [now apply SelectorFacts.getitem_nonneg |].
    pose proof (SelectorFacts.rlist_bounds xs _ (SelectorFacts.hd_In xs Hxs)) as [H1 H2].
    pose proof (SelectorFacts.rlist_bounds xs _ (SelectorFacts.last_In xs Hxs)) as [H3 H4].
    unfold Rmin, Rmax in *. destruct (Rle_dec _ _); lra.
Qed.

(** The series of scenario C with a quarter of the maximum as cutoff: the
    line through the points is above 25 at x = 3 and below it at x = 7. *)
Lemma find_yintercept_returns_witness :
  exists r,
    _find_yintercept scenario_interp1d (map Finite scenario_x) (map Finite scenario_y)
      (Finite 4)
    = Ok (Finite r)
    /\ (rmin_list scenario_x <= r <= rmax_list scenario_x)%R.
Proof.
  apply (find_yintercept_returns scenario_interp1d scenario_x scenario_y 4 scenario_line).
  - discriminate.
  - discriminate.
  - lra.
  - rewrite SelectorFacts.scenario_y_max, SelectorFacts.scenario_y_min. lra.
  - reflexivity.
  - rewrite SelectorFacts.scenario_y_max. unfold scenario_line, scenario_x.
    cbn [hd List.last sub neg add mul].
    rewrite CrossingFacts.sign_pos, CrossingFacts.sign_neg by lra.
    intros [= H]. lra.
Defined.

End ReturnFacts.

(** ** The table of common features over a range of k *)

Module AcfKmerFacts.
Import NP NPFacts CommonFeature AcfKmer LoopFacts.

Lemma rebuild_missing (stores : list KmerSignature) (ksize : Z) (store : KmerSignature) :
  In store stores -> stored store ksize = None ->
  rebuild_sparse_matrix stores ksize = Raise KeyError.
Proof.
  intros Hin Hnone. unfold rebuild_sparse_matrix.
  apply (mapM_raise _ _ _ store Hin).
  - unfold get_sparse_array. now rewrite Hnone.
  - intros s _. unfold get_sparse_array. destruct (stored s ksize); cbn; eauto.
Qed.

Lemma rebuild_indexed (stores : list KmerSignature) (ksize : Z) :
  (forall store, In store stores -> is_Some (stored store ksize)) ->
  exists rows, Forall2 (fun store row => stored store ksize = Some row) stores rows.
Proof.
  induction stores as [| s stores IH]; intros H; [exists []; constructor |].
  destruct (H s (or_introl eq_refl)) as [row Hrow].
  destruct IH as [rows Hrows]; [intros x Hx; apply H; now right |].
  exists (row :: rows). now constructor.
Qed.

(** The batch estimator on files that all hold the index: one value per
    file. *)
Lemma average_indexed (stores : list KmerSignature) (ksize : Z) :
  (forall store, In store stores -> is_Some (stored store ksize)) ->
  exists col,
    calculate_average_common_feature stores ksize = Ok col
    /\ length col = length stores.
Proof.
  intros Hidx. destruct (rebuild_indexed stores ksize Hidx) as [rows Hrows].
  pose proof (Forall2_length _ _ _ Hrows) as Hlen.
  unfold calculate_average_common_feature.
  rewrite (CommonFeatureFacts.rebuild_sparse_matrix_rows _ _ _ Hrows).
  cbn [mbind result_bind].
  match goal with
  | |- context [mapM ?f ?l] =>
      destruct (mapM_total f l) as [vals Hvals];
      [| destruct (mapM_lookup f l vals Hvals) as [Hvlen _]; rewrite Hvals]
  end.
  - intros i Hi. apply in_seq in Hi.
    destruct (lookup_lt_is_Some_2 (map ones rows) i) as [ri Hri];
      [rewrite length_map; lia |].
    rewrite Hri. cbn [from_option mbind result_bind]. eauto.
  - cbn [mbind result_bind]. eexists. split; [reflexivity |].
    unfold divide_by_norm. rewrite length_map, Hvlen, length_seq. lia.
Qed.

Lemma average_missing (stores : list KmerSignature) (ksize : Z) (store : KmerSignature) :
  In store stores -> stored store ksize = None ->
  calculate_average_common_feature stores ksize = Raise KeyError.
Proof.
  intros Hin Hnone. unfold calculate_average_common_feature.
  now rewrite (rebuild_missing _ _ _ Hin Hnone).
Qed.

(** The batch estimator fails in one way only: a file without the index. *)
Lemma average_cases (stores : list KmerSignature) (ksize : Z) :
  (exists col, calculate_average_common_feature stores ksize = Ok col)
  \/ calculate_average_common_feature stores ksize = Raise KeyError.
Proof.
  destruct (decide (Forall (fun s => is_Some (stored s ksize)) stores)) as [Hall | Hnot].
  - left. rewrite Forall_forall in Hall.
    destruct (average_indexed stores ksize) as (col & Hcol & _); [| eauto].
    intros s Hs. apply Hall. now apply list_elem_of_In.
  - right. apply not_Forall_Exists in Hnot; [| intros s; apply _].
    apply Exists_exists in Hnot. destruct Hnot as (s & Hs & Hnone).
    apply (average_missing _ _ s); [now apply list_elem_of_In |].
    cbn in Hnone. destruct (stored s ksize); [| reflexivity].
    exfalso. apply Hnone. eauto.
Qed.

(** Row [i] of the stacked columns. *)
Lemma omap_row {A : Type} (cols : list (list A)) (i : nat) :
  Forall (fun col => (i < length col)%nat) cols ->
  length (omap (fun col : list A => col !! i) cols) = length cols
  /\ forall j v, omap (fun col : list A => col !! i) cols !! j = Some v ->
       exists col, cols !! j = Some col /\ col !! i = Some v.
Proof.
  induction 1 as [| col cols Hcol _ [IHlen IH]]; [split; [reflexivity | intros j v H; discriminate] |].
  destruct (lookup_lt_is_Some_2 col i Hcol) as [a Ha].
  cbn [omap list_omap]. rewrite Ha. split; [cbn [length]; lia |].
  intros [| j] v; cbn [lookup list_lookup].
  - intros [= <-]. eauto.
  - apply IH.
Qed.

Lemma hstack_rows (cols : list (list float64)) (n : nat) :
  cols <> [] -> Forall (fun col => length col = n) cols ->
  exists rows,
    hstack cols = Ok rows
    /\ length rows = n
    /\ forall i row, rows !! i = Some row ->
         length row = length cols
         /\ forall j v, row !! j = Some v ->
              exists col, cols !! j = Some col /\ col !! i = Some v.
Proof.
  intros Hne Hall. destruct cols as [| c rest]; [congruence |].
  pose proof (Forall_inv Hall) as Hc. pose proof (Forall_inv_tail Hall) as Hrest.
  unfold hstack.
  assert (Hb : forallb (fun c' => (length c' =? length c)%nat) rest = true).
  { apply forallb_forall. intros c' Hc'. apply Nat.eqb_eq.
    rewrite Forall_forall in Hrest. rewrite Hc. apply Hrest. now apply list_elem_of_In. }
  rewrite Hb. eexists. split; [reflexivity |].
  split; [now rewrite length_map, length_seq |].
  intros i row Hrow.
  change (map ?f ?l) with (fmap f l) in Hrow. rewrite list_lookup_fmap in Hrow.
  destruct (seq 0 (length c) !! i) as [i' |] eqn:Ei; [| discriminate].
  apply lookup_seq in Ei. destruct Ei as [-> Hi]. cbn [Nat.add] in Hrow.
  cbn [fmap option_fmap option_map] in Hrow. injection Hrow as <-.
  apply (omap_row (c :: rest) i).
  cbn beta in Hc.
  eapply Forall_impl; [exact Hall |]. cbn beta. intros col Hcol. lia.
Qed.

Section WithInterpolation.

Variable interp1d : list float64 -> list float64 -> result (float64 -> float64).

(** With an empty range of k there is no column to stack: [np.hstack]
    refuses the empty list, whatever the collection. *)
Theorem calculate_acf_kmer_empty_range
    (stores : list KmerSignature) (start_k stop_k : Z) :
  (stop_k < start_k)%Z ->
  calculate_acf_kmer interp1d stores start_k stop_k = Raise ValueError.
Proof.
  intros Hlt. unfold calculate_acf_kmer, range.
  replace (Z.to_nat (stop_k + 1 - start_k)) with 0%nat by lia.
  reflexivity.
Qed.

(** A file that lacks the index of some k of the range makes the call fail
    with the store's lookup error, before anything is stacked or
    interpolated. *)
Theorem calculate_acf_kmer_missing_index
    (stores : list KmerSignature) (start_k stop_k k : Z) (store : KmerSignature) :
  (start_k <= k <= stop_k)%Z -> In store stores -> stored store k = None ->
  calculate_acf_kmer interp1d stores start_k stop_k = Raise KeyError.
Proof.
  intros Hk Hin Hnone. unfold calculate_acf_kmer.
  rewrite (mapM_raise _ _ KeyError k); [reflexivity | | |].
  - apply In_range. lia.
  - now apply (average_missing _ _ store).
  - intros k' _. apply average_cases.
Qed.

(** For a collection of at least one file, when the range is not empty and
    every file holds the index of every k of the range, the table has one
    row per genome and one column per k, its entry (i, j) is entry i of the
    batch estimator at k = start_k + j, and the call returns that table with
    the k suggested for each row, or fails as the selector fails on a row. *)
Theorem calculate_acf_kmer_table
    (stores : list KmerSignature) (start_k stop_k : Z) :
  stores <> [] -> (start_k <= stop_k)%Z ->
  (forall store k, In store stores -> (start_k <= k <= stop_k)%Z ->
                   is_Some (stored store k)) ->
  exists acfs,
    calculate_acf_kmer interp1d stores start_k stop_k
    = (kmers ← mapM (fun acf =>
                  Selector._find_yintercept interp1d
                    (map of_int (range start_k (stop_k + 1))) acf (of_int 10))
                acfs;
       mret (acfs, kmers))
    /\ length acfs = length stores
    /\ forall i row, acfs !! i = Some row ->
         length row = Z.to_nat (stop_k - start_k + 1)
         /\ forall j v, row !! j = Some v ->
              exists col,
                calculate_average_common_feature stores (start_k + Z.of_nat j) = Ok col
                /\ col !! i = Some v.
Proof.
  intros _ Hle Hidx. unfold calculate_acf_kmer.
  set (ks := range start_k (stop_k + 1)).
  destruct (mapM_total (fun ksize => calculate_average_common_feature stores ksize) ks)
    as [cols Hcols].
  { intros k Hk. apply In_range in Hk.
    destruct (average_indexed stores k) as (col & Hcol & _); [| eauto].
    intros store Hstore. apply Hidx; [assumption | lia]. }
  destruct (mapM_lookup _ _ _ Hcols) as [Hlen Hcol].
  assert (Hks : length ks = Z.to_nat (stop_k - start_k + 1)).
  { unfold ks. rewrite length_range. lia. }
  assert (Hall : Forall (fun col => length col = length stores) cols).
  { apply Forall_lookup. intros j col Hj.
    assert (Hjk : (j < length ks)%nat) by (apply lookup_lt_Some in Hj; lia).
    destruct (lookup_lt_is_Some_2 ks j Hjk) as [k Hk].
    destruct (Hcol j k Hk) as (col' & Hcol' & Heq).
    rewrite Hj in Hcol'. injection Hcol' as <-.
    destruct (average_indexed stores k) as (col' & Hcol' & Hlen').
    - intros store Hstore. apply Hidx; [assumption |].
      apply list_elem_of_lookup_2, list_elem_of_In, In_range in Hk. lia.
    - congruence. }
  destruct (hstack_rows cols (length stores)) as (acfs & Hstack & Hrows & Hentries);
    [| exact Hall |].
  { intros ->. cbn [length] in Hlen. lia. }
  exists acfs. rewrite Hcols. cbn [mbind result_bind]. rewrite Hstack.
  split; [reflexivity |]. split; [exact Hrows |].
  intros i row Hrow. destruct (Hentries i row Hrow) as [Hrowlen Hrowent].
  split; [lia |].
  intros j v Hv. destruct (Hrowent j v Hv) as (col & Hj & Hi).
  exists col. split; [| exact Hi].
  assert (Hjk : (j < length ks)%nat) by (apply lookup_lt_Some in Hj; lia).
  assert (Hk : ks !! j = Some (start_k + Z.of_nat j)%Z).
  { apply lookup_range. lia. }
  destruct (Hcol j _ Hk) as (col' & Hcol' & Heq). congruence.
Qed.

End WithInterpolation.

Lemma calculate_acf_kmer_empty_range_witness :
  calculate_acf_kmer Inputs.flat_interp1d
    [Inputs.genome [0; 1; 2]; Inputs.genome [2; 3]]%Z 5 3
  = Raise ValueError.
Proof.
  apply (calculate_acf_kmer_empty_range Inputs.flat_interp1d
           [Inputs.genome [0; 1; 2]; Inputs.genome [2; 3]]%Z 5 3).
  lia.
Defined.

Lemma calculate_acf_kmer_missing_index_witness :
  calculate_acf_kmer Inputs.flat_interp1d
    [Inputs.genome [0; 1; 2]; Inputs.genome_between 1 2 [2; 3]]%Z 1 4
  = Raise KeyError.
Proof.
  apply (calculate_acf_kmer_missing_index Inputs.flat_interp1d
           [Inputs.genome [0; 1; 2]; Inputs.genome_between 1 2 [2; 3]]%Z 1 4 3
           (Inputs.genome_between 1 2 [2; 3]%Z)).
  - lia.
  - right. left. reflexivity.
  - reflexivity.
Defined.

Lemma calculate_acf_kmer_table_witness :
  exists acfs,
    calculate_acf_kmer Inputs.flat_interp1d
      [Inputs.genome [0; 1; 2]; Inputs.genome [2; 3]]%Z 1 4
    = (kmers ← mapM (fun acf =>
                  Selector._find_yintercept Inputs.flat_interp1d
                    (map of_int (range 1 (4 + 1))) acf (of_int 10))
                acfs;
       mret (acfs, kmers))
    /\ length acfs = length [Inputs.genome [0; 1; 2]; Inputs.genome [2; 3]]%Z
    /\ forall i row, acfs !! i = Some row ->
         length row = Z.to_nat (4 - 1 + 1)
         /\ forall j v, row !! j = Some v ->
              exists col,
                calculate_average_common_feature
                  [Inputs.genome [0; 1; 2]; Inputs.genome [2; 3]]%Z (1 + Z.of_nat j)
                = Ok col
                /\ col !! i = Some v.
Proof.
  apply (calculate_acf_kmer_table Inputs.flat_interp1d
           [Inputs.genome [0; 1; 2]; Inputs.genome [2; 3]]%Z 1 4).
  - discriminate.
  - lia.
  - intros store k [<- | [<- | []]] _; eexists; reflexivity.
Defined.

End AcfKmerFacts.

(** ** The cumulative relative entropy over a range of k *)

Module CreKmerFacts.
Import NP NPFacts RelativeEntropy Selector Inputs LoopFacts.

Section WithImports.

Variable trimFront : list Z -> Z -> list Z.
Variable trimBack : list Z -> list Z.
Variable searchsorted : list Z -> list Z -> list Z.
Variable argsort : list Z -> list Z.
Variable int_log4 : Z -> Z.
Variable interp1d : list float64 -> list float64 -> result (float64 -> float64).

(** [calculate_cre_kmer] reads the indexes of the sizes start_k - 1 to
    stop_k and no other: two signature files that agree on these sizes get
    the same result.  The loop of lines 382-384 over
    [range(start_k - 2, stop_k + 1)] checks nothing. *)
Theorem calculate_cre_kmer_reads_range
    (store store' : KmerSignature) (start_k stop_k : Z) :
  (forall k, (start_k - 1 <= k <= stop_k)%Z -> stored store k = stored store' k) ->
  calculate_cre_kmer trimFront trimBack searchsorted argsort int_log4 interp1d
    store start_k stop_k
  = calculate_cre_kmer trimFront trimBack searchsorted argsort int_log4 interp1d
      store' start_k stop_k.
Proof.
  intros Hsame. unfold calculate_cre_kmer.
  rewrite (mapM_ext_in
    (calculate_relative_entropy trimFront trimBack searchsorted argsort int_log4 store)
    (calculate_relative_entropy trimFront trimBack searchsorted argsort int_log4 store'));
    [reflexivity |].
  intros k Hk. apply In_range in Hk.
  unfold calculate_relative_entropy, get_sparse_array.
  rewrite (Hsame k), (Hsame (k - 1)%Z), (Hsame (k - 2)%Z) by lia. reflexivity.
Qed.

(** With stop_k < start_k no relative entropy is computed and no array is
    fetched from the file: the series is [0] over an empty array of k, and
    the call fails, with scipy's error if it refuses such a series and at
    [x[0]] otherwise. *)
Theorem calculate_cre_kmer_empty_range (store : KmerSignature) (start_k stop_k : Z) :
  (stop_k < start_k)%Z ->
  calculate_cre_kmer trimFront trimBack searchsorted argsort int_log4 interp1d
    store start_k stop_k
  = match interp1d [] [Finite 0] with
    | Ok _ => Raise IndexError
    | Raise e => Raise e
    end.
Proof.
  intros Hlt. unfold calculate_cre_kmer, range.
  replace (Z.to_nat (stop_k + 1 - (start_k + 1))) with 0%nat by lia.
  replace (Z.to_nat (stop_k + 1 - start_k)) with 0%nat by lia.
  cbn [seq map mapM mbind result_bind mret result_ret].
  change (cre_of []) with [Finite 0].
  unfold _find_yintercept. cbn [array_max array_min fold_left mbind result_bind].
  unfold of_int. rewrite div_finite by lra.
  rewrite SelectorFacts.ltb_finite_false by lra.
  destruct (interp1d [] [Finite 0]); reflexivity.
Qed.

(** With start_k < stop_k, the first relative entropy is the one of size
    start_k + 1, computed from the arrays of the sizes start_k + 1, start_k
    and start_k - 1: when the file lacks one of them the call fails with the
    store's lookup error. *)
Theorem calculate_cre_kmer_missing_index
    (store : KmerSignature) (start_k stop_k k : Z) :
  (start_k < stop_k)%Z -> (start_k - 1 <= k <= start_k + 1)%Z ->
  stored store k = None ->
  calculate_cre_kmer trimFront trimBack searchsorted argsort int_log4 interp1d
    store start_k stop_k
  = Raise KeyError.
Proof.
  intros Hlt Hk Hnone. unfold calculate_cre_kmer.
  destruct (range_first (start_k + 1) (stop_k + 1)) as [rest ->]; [lia |].
  rewrite (OfcFacts.mapM_raise_first _ _ _ KeyError); [reflexivity |].
  unfold calculate_relative_entropy, get_sparse_array.
  assert (Hcases : k = (start_k + 1)%Z \/ k = (start_k + 1 - 1)%Z
                   \/ k = (start_k + 1 - 2)%Z) by lia.
  destruct (stored store (start_k + 1)) as [array0 |] eqn:E0;
    [| reflexivity].
  destruct (stored store (start_k + 1 - 1)) as [array1 |] eqn:E1;
    [| reflexivity].
  destruct (stored store (start_k + 1 - 2)) as [array2 |] eqn:E2;
    [| reflexivity].
  destruct Hcases as [-> | [-> | ->]]; congruence.
Qed.

End WithImports.

Lemma calculate_cre_kmer_missing_index_witness :
  calculate_cre_kmer JoinExample.trimFront JoinExample.trimBack JoinExample.searchsorted
    JoinExample.argsort JoinExample.int_log4 flat_interp1d
    (genome_between 3 5 [0; 1]%Z) 3 5
  = Raise KeyError.
Proof.
  apply (calculate_cre_kmer_missing_index JoinExample.trimFront JoinExample.trimBack
           JoinExample.searchsorted JoinExample.argsort JoinExample.int_log4
           flat_interp1d (genome_between 3 5 [0; 1]%Z) 3 5 2).
  - lia.
  - lia.
  - reflexivity.
Defined.

Lemma calculate_cre_kmer_reads_range_witness :
  calculate_cre_kmer JoinExample.trimFront JoinExample.trimBack JoinExample.searchsorted
    JoinExample.argsort JoinExample.int_log4 flat_interp1d (genome [0; 1]%Z) 2 3
  = calculate_cre_kmer JoinExample.trimFront JoinExample.trimBack JoinExample.searchsorted
      JoinExample.argsort JoinExample.int_log4 flat_interp1d
      (genome_between 1 3 [0; 1]%Z) 2 3.
Proof.
  apply calculate_cre_kmer_reads_range.
  intros k Hk. cbn [stored genome genome_between].
  destruct (Z.leb_spec 1 k); [| lia]. destruct (Z.leb_spec k 3); [| lia]. reflexivity.
Defined.

Lemma calculate_cre_kmer_empty_range_witness :
  calculate_cre_kmer JoinExample.trimFront JoinExample.trimBack JoinExample.searchsorted
    JoinExample.argsort JoinExample.int_log4 flat_interp1d (genome [0; 1]%Z) 5 3
  = Raise IndexError.
Proof.
  apply (calculate_cre_kmer_empty_range JoinExample.trimFront JoinExample.trimBack
           JoinExample.searchsorted JoinExample.argsort JoinExample.int_log4
           flat_interp1d (genome [0; 1]%Z) 5 3).
  lia.
Defined.

End CreKmerFacts.
